(** * Library lending engine (server.js): a shallow embedding and its properties

    The program is a single Express application holding three in-memory
    [Map]s ([members], [books], [borrowings]).  Every request handler is
    embedded as a pure function from the state before the request to a
    response and the state after it.  Borrowing records are JavaScript
    objects shared between the [borrowings] map and the [history] array of
    the member who borrowed: the embedding keeps them in an object store and
    lets both places hold the same location. *)

From stdpp Require Import base numbers list list_numbers sorting gmap strings option.

Local Open Scope Z_scope.

(* ===================================================================== *)
(** ** JavaScript [Date]: time values and local-time day arithmetic       *)
(* ===================================================================== *)

(** A [Date] is its time value: milliseconds since 1970-01-01T00:00:00Z.
    The handlers read the clock with [new Date()], print dates with
    [toISOString] (millisecond precision, so printing followed by
    [new Date(string)] gives the time value back) and move a date with
    [getDate]/[setDate], which work on the calendar of the host's local
    time zone.  The functions below follow ECMA-262, section "Date
    Objects"; time values stay far inside the range on which [TimeClip] is
    the identity, so [TimeClip] is left out. *)
Module Date.

Definition msPerDay : Z := 1000 * 60 * 60 * 24.

Definition Day (t : Z) : Z := t / msPerDay.
Definition TimeWithinDay (t : Z) : Z := t mod msPerDay.

Definition DaysInYear (y : Z) : Z :=
  if decide (y mod 4 ≠ 0) then 365
  else if decide (y mod 100 ≠ 0) then 366
  else if decide (y mod 400 ≠ 0) then 365
  else 366.

Definition DayFromYear (y : Z) : Z :=
  365 * (y - 1970) + (y - 1969) / 4 - (y - 1901) / 100 + (y - 1601) / 400.

Definition TimeFromYear (y : Z) : Z := msPerDay * DayFromYear y.

(** [YearFromTime t] is the largest [y] with [TimeFromYear y <= t]: the
    search starts from an upper estimate and walks down. *)
Fixpoint year_down (fuel : nat) (d y : Z) : Z :=
  match fuel with
  | O => y
  | S fuel' => if decide (DayFromYear y ≤ d) then y else year_down fuel' d (y - 1)
  end.

Definition YearFromTime (t : Z) : Z :=
  let d := Day t in
  year_down (Z.to_nat (Z.abs d / 100000 + 3)) d (1970 + Z.max (d / 365) (d / 366)).

Definition InLeapYear (t : Z) : Z :=
  if decide (DaysInYear (YearFromTime t) = 366) then 1 else 0.

Definition DayWithinYear (t : Z) : Z := Day t - DayFromYear (YearFromTime t).

(** First day-within-year of month [m] (0 = January). *)
Definition monthStart (m leap : Z) : Z :=
  if decide (m = 0) then 0
  else if decide (m = 1) then 31
  else if decide (m = 2) then 59 + leap
  else if decide (m = 3) then 90 + leap
  else if decide (m = 4) then 120 + leap
  else if decide (m = 5) then 151 + leap
  else if decide (m = 6) then 181 + leap
  else if decide (m = 7) then 212 + leap
  else if decide (m = 8) then 243 + leap
  else if decide (m = 9) then 273 + leap
  else if decide (m = 10) then 304 + leap
  else 334 + leap.

Definition MonthFromTime (t : Z) : Z :=
  let d := DayWithinYear t in
  let leap := InLeapYear t in
  if decide (d < 31) then 0
  else if decide (d < 59 + leap) then 1
  else if decide (d < 90 + leap) then 2
  else if decide (d < 120 + leap) then 3
  else if decide (d < 151 + leap) then 4
  else if decide (d < 181 + leap) then 5
  else if decide (d < 212 + leap) then 6
  else if decide (d < 243 + leap) then 7
  else if decide (d < 273 + leap) then 8
  else if decide (d < 304 + leap) then 9
  else if decide (d < 334 + leap) then 10
  else 11.

Definition DateFromTime (t : Z) : Z :=
  DayWithinYear t - monthStart (MonthFromTime t) (InLeapYear t) + 1.

(** [MakeDay year month date]: the day number of the first of the month,
    plus [date - 1]. *)
Definition MakeDay (year month date : Z) : Z :=
  let ym := year + month / 12 in
  let mn := month mod 12 in
  let leap := if decide (DaysInYear ym = 366) then 1 else 0 in
  DayFromYear ym + monthStart mn leap + date - 1.

Definition MakeDate (day time : Z) : Z := day * msPerDay + time.

Section LocalTime.
(** The host's time zone: [LocalTZA t true] is the offset of local time
    from UTC (in ms) at the UTC instant [t]; [LocalTZA t false] is the
    offset in force at the local time value [t]. *)
Variable LocalTZA : Z → bool → Z.

Definition LocalTime (t : Z) : Z := t + LocalTZA t true.
Definition UTC (t : Z) : Z := t - LocalTZA t false.

(** [d.getDate()] *)
Definition getDate (t : Z) : Z := DateFromTime (LocalTime t).

(** [d.setDate(dt)]: the new time value of [d]. *)
Definition setDate (t dt : Z) : Z :=
  let lt := LocalTime t in
  UTC (MakeDate (MakeDay (YearFromTime lt) (MonthFromTime lt) dt)
                (TimeWithinDay lt)).
End LocalTime.

(** A host whose offset from UTC never changes ([TZ=UTC] is [fixedZone 0]). *)
Definition fixedZone (offset : Z) : Z → bool → Z := λ _ _, offset.

(** A host on United Kingdom time during 2026: GMT, and British Summer
    Time (one hour ahead) from 29 March 01:00 UTC to 25 October 01:00 UTC. *)
Definition msPerHour : Z := 3600000.
Definition bstStart : Z := MakeDate (MakeDay 2026 2 29) msPerHour.
Definition bstEnd : Z := MakeDate (MakeDay 2026 9 25) msPerHour.
Definition london2026 (t : Z) (isUTC : bool) : Z :=
  let shift := if isUTC then 0 else msPerHour in
  if decide (bstStart + shift ≤ t < bstEnd + shift) then msPerHour else 0.

End Date.

(* ===================================================================== *)
(** ** Data model                                                         *)
(* ===================================================================== *)

(** Identifiers are integers, as in the data model and as [parseInt] gives
    them to the handlers that read the id from the path; [0] is the one
    integer JavaScript treats as false.  Names and titles are strings, the
    empty string being false.  The date fields of a record ([borrowed_at],
    [due_date], [returned_at]) hold the time value that their ISO string
    prints. *)

(** A reference to a borrowing object: its position in the object store. *)
Abbreviation loc := nat (only parsing).

Inductive Status : Type := active | returned.

#[global] Instance Status_eq_dec : EqDecision Status.
Proof. solve_decision. Defined.

(** The object literal built by [POST /api/borrow].  [returned_at] is absent
    ([None]) until [POST /api/return] assigns it. *)
Module Borrowing.
Record t : Type := mk {
  transaction_id : Z;
  member_id : Z;
  member_name : string;
  book_id : Z;
  book_title : string;
  borrowed_at : Z;
  due_date : Z;
  status : Status;
  returned_at : option Z
}.

(** [borrowing.status = "returned"; borrowing.returned_at = now] *)
Definition mark_returned (now : Z) (b : t) : t :=
  mk (transaction_id b) (member_id b) (member_name b) (book_id b)
     (book_title b) (borrowed_at b) (due_date b) returned (Some now).
End Borrowing.

(** The value stored in [members]: the member's fields and [history], an
    array of references to borrowing objects. *)
Module Member.
Record t : Type := mk {
  member_id : Z;
  name : string;
  age : Z;
  has_borrowed : bool;
  history : list loc
}.

Definition set_name (n : string) (m : t) : t :=
  mk (member_id m) n (age m) (has_borrowed m) (history m).
Definition set_age (a : Z) (m : t) : t :=
  mk (member_id m) (name m) a (has_borrowed m) (history m).
Definition set_has_borrowed (f : bool) (m : t) : t :=
  mk (member_id m) (name m) (age m) f (history m).
Definition push_history (l : loc) (m : t) : t :=
  mk (member_id m) (name m) (age m) (has_borrowed m) (history m ++ [l]).
End Member.

Module Book.
Record t : Type := mk {
  book_id : Z;
  title : string;
  author : string;
  isbn : string;
  is_available : bool
}.

Definition set_is_available (f : bool) (b : t) : t :=
  mk (book_id b) (title b) (author b) (isbn b) f.
End Book.

(** The three maps of the program and the store of borrowing objects.
    [members] and [books] are keyed maps whose values are only reached
    through their key.  [borrowings] keeps the insertion order of the
    JavaScript [Map] (the order of [values()]) and maps a transaction id to
    the location of its record. *)
Record State : Type := mkState {
  members : gmap Z Member.t;
  books : gmap Z Book.t;
  borrowings : list (Z * loc);
  heap : list Borrowing.t
}.

Definition init : State := mkState ∅ ∅ [] [].

(** [Map.prototype.set] on an insertion-ordered map: an existing key keeps
    its place and gets the new value, a new key goes to the end. *)
Fixpoint map_set (k : Z) (v : loc) (m : list (Z * loc)) : list (Z * loc) :=
  match m with
  | [] => [(k, v)]
  | (k', v') :: m' =>
      if decide (k = k') then (k, v) :: m' else (k', v') :: map_set k v m'
  end.

(** [borrowings.size] *)
Definition map_size (m : list (Z * loc)) : Z := Z.of_nat (length m).

(** [[...borrowings.values()]]: the records of the ledger in insertion
    order, each with the location it lives at. *)
Definition ledger_entries (s : State) : list (loc * Borrowing.t) :=
  omap (λ kv, (λ b, (kv.2, b)) <$> heap s !! kv.2) (borrowings s).

Definition ledger_values (s : State) : list Borrowing.t :=
  (ledger_entries s).*2.

(** The failures the handlers answer with, one per message, and the
    status code each is sent with. *)
Inductive Error : Type :=
  | MissingFields
  | AlreadyExists_member
  | AlreadyExists_book
  | InvalidAge
  | NotFound_member
  | NotFound_book
  | Conflict_already_borrowed
  | Conflict_unavailable
  | Invalid_no_active_borrowing
  | Conflict_member_has_borrowing
  | Conflict_book_borrowed.

Definition http_status (e : Error) : Z :=
  match e with
  | NotFound_member | NotFound_book => 404
  | _ => 400
  end.

(** What a handler does: answers with a body, answers with a failure, or
    throws (an uncaught [TypeError], which Express turns into a 500). *)
Inductive Response (A : Type) : Type :=
  | Ok (a : A)
  | Fail (e : Error)
  | Throws.
Arguments Ok {A} a.
Arguments Fail {A} e.
Arguments Throws {A}.

(** JavaScript truthiness of an optional integer or string field. *)
Definition truthyZ (x : option Z) : bool :=
  match x with Some n => bool_decide (n ≠ 0) | None => false end.
Definition truthyS (x : option string) : bool :=
  match x with Some s => bool_decide (s ≠ EmptyString) | None => false end.

(* ===================================================================== *)
(** ** Request handlers                                                   *)
(* ===================================================================== *)

(** Response bodies. *)
Record MemberView : Type := mkMemberView {
  mv_member_id : Z; mv_name : string; mv_age : Z; mv_has_borrowed : bool
}.

Record HistoryEntry : Type := mkHistoryEntry {
  he_transaction_id : Z;
  he_book_id : Z;
  he_book_title : string;
  he_borrowed_at : Z;
  he_returned_at : option Z;
  he_status : Status
}.

Record BorrowedView : Type := mkBorrowedView {
  bv_transaction_id : Z;
  bv_member_id : Z;
  bv_member_name : string;
  bv_book_id : Z;
  bv_book_title : string;
  bv_borrowed_at : Z;
  bv_due_date : Z
}.

Record OverdueView : Type := mkOverdueView {
  ov_borrowing : BorrowedView;
  days_overdue : Z
}.

Definition borrowed_view (b : Borrowing.t) : BorrowedView :=
  mkBorrowedView (Borrowing.transaction_id b) (Borrowing.member_id b)
    (Borrowing.member_name b) (Borrowing.book_id b) (Borrowing.book_title b)
    (Borrowing.borrowed_at b) (Borrowing.due_date b).

(** [returned_at: b.returned_at || null]: a date string is never empty, so
    the field is shown whenever it is set. *)
Definition history_entry (b : Borrowing.t) : HistoryEntry :=
  mkHistoryEntry (Borrowing.transaction_id b) (Borrowing.book_id b)
    (Borrowing.book_title b) (Borrowing.borrowed_at b)
    (Borrowing.returned_at b) (Borrowing.status b).

(** Q1, [POST /api/members]. *)
Definition create_member (member_id : option Z) (name : option string)
    (age : option Z) (s : State) : Response MemberView * State :=
  match member_id, name, age with
  | Some id, Some n, Some a =>
      if negb (truthyZ member_id) || negb (truthyS name) then (Fail MissingFields, s)
      else if bool_decide (is_Some (members s !! id)) then (Fail AlreadyExists_member, s)
      else if bool_decide (a < 12) then (Fail InvalidAge, s)
      else
        (Ok (mkMemberView id n a false),
         mkState (<[id := Member.mk id n a false []]> (members s))
                 (books s) (borrowings s) (heap s))
  | _, _, _ => (Fail MissingFields, s)
  end.

(** Q4, [PUT /api/members/:member_id]. *)
Definition update_member (id : Z) (name : option string) (age : option Z)
    (s : State) : Response MemberView * State :=
  match members s !! id with
  | None => (Fail NotFound_member, s)
  | Some member =>
      if match age with Some a => bool_decide (a < 12) | None => false end
      then (Fail InvalidAge, s)
      else
        let member1 :=
          match name with
          | Some n => if truthyS name then Member.set_name n member else member
          | None => member
          end in
        let member2 :=
          match age with
          | Some a => if truthyZ age then Member.set_age a member1 else member1
          | None => member1
          end in
        (Ok (mkMemberView (Member.member_id member2) (Member.name member2)
               (Member.age member2) (Member.has_borrowed member2)),
         mkState (<[id := member2]> (members s)) (books s) (borrowings s) (heap s))
  end.

(** The test of [find] in Q6. *)
Definition is_active_loan (member_id book_id : Z) (b : Borrowing.t) : bool :=
  bool_decide (Borrowing.member_id b = member_id)
  && bool_decide (Borrowing.book_id b = book_id)
  && bool_decide (Borrowing.status b = active).

(** The test of [some] in Q15. *)
Definition is_active_on_book (id : Z) (b : Borrowing.t) : bool :=
  bool_decide (Borrowing.book_id b = id)
  && bool_decide (Borrowing.status b = active).

Section Engine.
(** The time zone of the host the server runs on. *)
Variable LocalTZA : Z → bool → Z.

(** Q5, [POST /api/borrow]; [now] is what [new Date()] reads. *)
Definition borrow (now : Z) (member_id book_id : Z) (s : State)
    : Response Borrowing.t * State :=
  match members s !! member_id with
  | None => (Fail NotFound_member, s)
  | Some member =>
  match books s !! book_id with
  | None => (Fail NotFound_book, s)
  | Some book =>
      if Member.has_borrowed member then (Fail Conflict_already_borrowed, s)
      else if negb (Book.is_available book) then (Fail Conflict_unavailable, s)
      else
        let transaction_id := map_size (borrowings s) + 1 in
        let dueDate := Date.setDate LocalTZA now (Date.getDate LocalTZA now + 14) in
        let borrowing :=
          Borrowing.mk transaction_id member_id (Member.name member) book_id
            (Book.title book) now dueDate active None in
        let l : loc := length (heap s) in
        (Ok borrowing,
         mkState
           (<[member_id :=
                Member.push_history l (Member.set_has_borrowed true member)]>
              (members s))
           (<[book_id := Book.set_is_available false book]> (books s))
           (map_set transaction_id l (borrowings s))
           (heap s ++ [borrowing]))
  end
  end.

(** Q6, [POST /api/return].  The record and the member are written before
    the book is looked up; assigning to a missing book throws. *)
Definition return_book (now : Z) (member_id book_id : Z) (s : State)
    : Response Borrowing.t * State :=
  match members s !! member_id with
  | None => (Fail NotFound_member, s)
  | Some member =>
  match List.find (λ e, is_active_loan member_id book_id e.2) (ledger_entries s) with
  | None => (Fail Invalid_no_active_borrowing, s)
  | Some (l, b) =>
      let borrowing := Borrowing.mark_returned now b in
      let heap1 := <[l := borrowing]> (heap s) in
      let members1 :=
        <[member_id := Member.set_has_borrowed false member]> (members s) in
      match books s !! book_id with
      | None => (Throws, mkState members1 (books s) (borrowings s) heap1)
      | Some book =>
          (Ok borrowing,
           mkState members1
             (<[book_id := Book.set_is_available true book]> (books s))
             (borrowings s) heap1)
      end
  end
  end.

(** Q7, [GET /api/borrowed]. *)
Definition list_borrowed (s : State) : list BorrowedView :=
  borrowed_view <$>
    List.filter (λ b, bool_decide (Borrowing.status b = active)) (ledger_values s).

(** Q8, [GET /api/members/:member_id/history]. *)
Definition history (id : Z) (s : State)
    : Response (Z * string * list HistoryEntry) :=
  match members s !! id with
  | None => Fail NotFound_member
  | Some member =>
      Ok (id, Member.name member,
          omap (λ l, history_entry <$> heap s !! l) (Member.history member))
  end.

(** Q9, [DELETE /api/members/:member_id]. *)
Definition delete_member (id : Z) (s : State) : Response unit * State :=
  match members s !! id with
  | None => (Fail NotFound_member, s)
  | Some member =>
      if Member.has_borrowed member then (Fail Conflict_member_has_borrowing, s)
      else (Ok (), mkState (delete id (members s)) (books s) (borrowings s) (heap s))
  end.

(** Q10, [GET /api/overdue]; [now] is what [new Date()] reads.
    [Math.floor] of the quotient of two integers is [Z.div]. *)
Definition overdue (now : Z) (s : State) : list OverdueView :=
  (λ b, mkOverdueView (borrowed_view b)
          ((now - Borrowing.due_date b) / (1000 * 60 * 60 * 24))) <$>
    List.filter
      (λ b, bool_decide (Borrowing.status b = active)
            && bool_decide (Borrowing.due_date b < now))
      (ledger_values s).

(** Q11, [POST /api/books]. *)
Definition add_book (book_id : option Z) (title author isbn : option string)
    (s : State) : Response Book.t * State :=
  match book_id, title, author, isbn with
  | Some id, Some t, Some a, Some i =>
      if negb (truthyZ book_id) || negb (truthyS title)
         || negb (truthyS author) || negb (truthyS isbn)
      then (Fail MissingFields, s)
      else if bool_decide (is_Some (books s !! id)) then (Fail AlreadyExists_book, s)
      else
        let newBook := Book.mk id t a i true in
        (Ok newBook,
         mkState (members s) (<[id := newBook]> (books s)) (borrowings s) (heap s))
  | _, _, _, _ => (Fail MissingFields, s)
  end.

(** Q15, [DELETE /api/books/:book_id]. *)
Definition delete_book (id : Z) (s : State) : Response unit * State :=
  match books s !! id with
  | None => (Fail NotFound_book, s)
  | Some _ =>
      if existsb (is_active_on_book id) (ledger_values s)
      then (Fail Conflict_book_borrowed, s)
      else (Ok (), mkState (members s) (delete id (books s)) (borrowings s) (heap s))
  end.

(** Q2, [GET /api/members/:member_id]. *)
Definition get_member (id : Z) (s : State) : Response MemberView :=
  match members s !! id with
  | None => Fail NotFound_member
  | Some member =>
      Ok (mkMemberView (Member.member_id member) (Member.name member)
            (Member.age member) (Member.has_borrowed member))
  end.

(** Q12, [GET /api/books/:book_id]. *)
Definition get_book (id : Z) (s : State) : Response Book.t :=
  match books s !! id with
  | None => Fail NotFound_book
  | Some book => Ok book
  end.

(** *** Runs of the server *)

(** The requests that can change the state, with the clock reading of
    those that read the clock. *)
Inductive Op : Type :=
  | CreateMember (member_id : option Z) (name : option string) (age : option Z)
  | UpdateMember (id : Z) (name : option string) (age : option Z)
  | Borrow (now : Z) (member_id book_id : Z)
  | Return (now : Z) (member_id book_id : Z)
  | DeleteMember (id : Z)
  | AddBook (book_id : option Z) (title author isbn : option string)
  | DeleteBook (id : Z).

(** The state a request leaves behind, whatever it answered. *)
Definition exec (op : Op) (s : State) : State :=
  match op with
  | CreateMember i n a => (create_member i n a s).2
  | UpdateMember i n a => (update_member i n a s).2
  | Borrow now m b => (borrow now m b s).2
  | Return now m b => (return_book now m b s).2
  | DeleteMember i => (delete_member i s).2
  | AddBook i t a n => (add_book i t a n s).2
  | DeleteBook i => (delete_book i s).2
  end.

(** Requests are served one at a time, oldest first. *)
Definition run (ops : list Op) (s : State) : State :=
  foldl (λ st op, exec op st) s ops.

Inductive reachable : State → Prop :=
  | reachable_init : reachable init
  | reachable_step op s : reachable s → reachable (exec op s).

End Engine.

(* ===================================================================== *)
(** ** Vocabulary of the properties                                       *)
(* ===================================================================== *)

(** How many records of a list pass a test. *)
Definition count {A} (p : A → bool) (l : list A) : nat :=
  length (List.filter p l).

(** The tests of the two derived flags. *)
Definition active_of_member (k : Z) (b : Borrowing.t) : bool :=
  bool_decide (Borrowing.member_id b = k)
  && bool_decide (Borrowing.status b = active).

Definition active_of_book (k : Z) (b : Borrowing.t) : bool :=
  bool_decide (Borrowing.book_id b = k)
  && bool_decide (Borrowing.status b = active).

(** The ledger of a state in which every borrowing got the next id: the
    [i]-th record created is filed under [i + 1]. *)
Definition ledger_of (h : list Borrowing.t) : list (Z * loc) :=
  imap (λ i _, (Z.of_nat i + 1, i)) h.

(** The active borrowings the ledger holds for a member, and for a book. *)
Definition active_loans_of_member (k : Z) (s : State) : nat :=
  count (active_of_member k) (ledger_values s).

Definition active_loans_of_book (k : Z) (s : State) : nat :=
  count (active_of_book k) (ledger_values s).

(** The transaction ids handed out so far, oldest first. *)
Definition assigned_ids (s : State) : list Z :=
  Borrowing.transaction_id <$> heap s.

(** What the registration forms let through: non-zero ids, non-empty
    names and titles, members of 12 or older; and records that copy such
    ids and names. *)
Definition well_formed (s : State) : Prop :=
  (∀ k m, members s !! k = Some m →
     k ≠ 0 ∧ Member.name m ≠ EmptyString ∧ 12 ≤ Member.age m)
  ∧ (∀ k b, books s !! k = Some b →
     k ≠ 0 ∧ Book.title b ≠ EmptyString ∧ Book.author b ≠ EmptyString
     ∧ Book.isbn b ≠ EmptyString)
  ∧ (∀ r, r ∈ heap s →
     Borrowing.member_id r ≠ 0 ∧ Borrowing.book_id r ≠ 0
     ∧ Borrowing.member_name r ≠ EmptyString
     ∧ Borrowing.book_title r ≠ EmptyString).

(** A small run used to exercise the properties: one book, one member,
    and two instants of 2026 at noon UTC, one nine days before British
    Summer Time begins and one five days before it ends. *)
Module Demo.
Definition stock : list Op :=
  [AddBook (Some 101) (Some "Dune") (Some "Frank Herbert") (Some "9780441013593");
   CreateMember (Some 1) (Some "Ada") (Some 30)].

Definition spring_noon : Z :=
  Date.MakeDate (Date.MakeDay 2026 2 20) (12 * Date.msPerHour).
Definition autumn_noon : Z :=
  Date.MakeDate (Date.MakeDay 2026 9 20) (12 * Date.msPerHour).

(** 15 March 2026, 01:30 UTC: fourteen local days later on United Kingdom
    time is 01:30 on 29 March, inside the hour the clocks skip. *)
Definition gap_night : Z :=
  Date.MakeDate (Date.MakeDay 2026 2 15) (Date.msPerHour + 30 * 60000).

Definition utc : Z → bool → Z := Date.fixedZone 0.

Definition first_loan : Borrowing.t :=
  Borrowing.mk 1 1 "Ada" 101 "Dune" spring_noon
    (spring_noon + 14 * Date.msPerDay) active None.

Definition stocked (tz : Z → bool → Z) : State := run tz stock init.
Definition lent (tz : Z → bool → Z) (now : Z) : State :=
  run tz (stock ++ [Borrow now 1 101]) init.

(** The demo loan, returned five milliseconds after it was made. *)
Definition given_back : State :=
  run utc [Return (spring_noon + 5) 1 101] (lent utc spring_noon).

(** Ada has book 101 and a second member, Ben, has a second book, 102. *)
Definition two_loans : State :=
  run utc
    [AddBook (Some 102) (Some "Emma") (Some "Jane Austen") (Some "9780141439587");
     CreateMember (Some 2) (Some "Ben") (Some 20);
     Borrow (spring_noon + 1) 2 102]
    (lent utc spring_noon).
End Demo.

Section Consistency.
Variable LocalTZA : Z → bool → Z.

(** What every state of a run satisfies. *)
Record consistent (s : State) : Prop := mkConsistent {
  c_ledger : borrowings s = ledger_of (heap s);
  c_tid : ∀ l b, heap s !! l = Some b →
    Borrowing.transaction_id b = Z.of_nat l + 1;
  c_member : ∀ k m, members s !! k = Some m →
    count (active_of_member k) (heap s)
    = if Member.has_borrowed m then 1%nat else 0%nat;
  c_book : ∀ k b, books s !! k = Some b →
    count (active_of_book k) (heap s)
    = if Book.is_available b then 0%nat else 1%nat;
  c_ref_member : ∀ l b, heap s !! l = Some b →
    Borrowing.status b = active → is_Some (members s !! Borrowing.member_id b);
  c_ref_book : ∀ l b, heap s !! l = Some b →
    Borrowing.status b = active → is_Some (books s !! Borrowing.book_id b);
  c_history : ∀ k m l, members s !! k = Some m → l ∈ Member.history m →
    ∃ b, heap s !! l = Some b ∧ Borrowing.member_id b = k;
  c_due : ∀ l b, heap s !! l = Some b →
    Borrowing.due_date b
    = Date.UTC LocalTZA
        (Date.LocalTime LocalTZA (Borrowing.borrowed_at b) + 14 * Date.msPerDay);
  c_member_key : ∀ k m, members s !! k = Some m → Member.member_id m = k;
  c_book_key : ∀ k b, books s !! k = Some b → Book.book_id b = k;
  c_active_history : ∀ l b, heap s !! l = Some b →
    Borrowing.status b = active →
    ∃ m, members s !! Borrowing.member_id b = Some m ∧ l ∈ Member.history m;
  c_history_nodup : ∀ k m, members s !! k = Some m → NoDup (Member.history m);
  c_active_open : ∀ l b, heap s !! l = Some b →
    Borrowing.status b = active → Borrowing.returned_at b = None
}.

End Consistency.

(* ===================================================================== *)
(** ** Properties of the date arithmetic                                  *)
(* ===================================================================== *)

Module DateFacts.
Import Date.

Lemma MonthFromTime_range t : 0 ≤ MonthFromTime t ≤ 11.
Proof. unfold MonthFromTime. repeat case_decide; lia. Qed.

Lemma Day_TimeWithinDay t : Day t * msPerDay + TimeWithinDay t = t.
Proof.
  unfold Day, TimeWithinDay.
  pose proof (Z.div_mod t msPerDay) as H.
  assert (msPerDay ≠ 0) as Hne by (unfold msPerDay; lia).
  specialize (H Hne). lia.
Qed.

Lemma DayFromYear_step y : DayFromYear (y + 1) = DayFromYear y + DaysInYear y.
Proof.
  unfold DayFromYear, DaysInYear.
  repeat case_decide; Z.div_mod_to_equations; lia.
Qed.

Lemma DaysInYear_range y : 365 ≤ DaysInYear y ≤ 366.
Proof. unfold DaysInYear. repeat case_decide; lia. Qed.

Lemma year_down_spec fuel d y :
  d < DayFromYear (y + 1) → DayFromYear (y - Z.of_nat fuel) ≤ d →
  DayFromYear (year_down fuel d y) ≤ d < DayFromYear (year_down fuel d y + 1).
Proof.
  revert y. induction fuel as [|fuel IH]; intros y Hhi Hlo; simpl.
  - rewrite Z.sub_0_r in Hlo. lia.
  - case_decide as Hy; [lia|]. apply IH.
    + replace (y - 1 + 1) with y by lia. lia.
    + by replace (y - 1 - Z.of_nat fuel) with (y - Z.of_nat (S fuel)) by lia.
Qed.

Lemma year_estimate_hi d :
  d < DayFromYear (1970 + Z.max (d / 365) (d / 366) + 1).
Proof. unfold DayFromYear. Z.div_mod_to_equations. lia. Qed.

Lemma year_estimate_lo d :
  DayFromYear (1970 + Z.max (d / 365) (d / 366) - (Z.abs d / 100000 + 3)) ≤ d.
Proof. unfold DayFromYear. Z.div_mod_to_equations. lia. Qed.

(** The search finds the year of the day, for every time value. *)
Lemma YearFromTime_days t :
  DayFromYear (YearFromTime t) ≤ Day t < DayFromYear (YearFromTime t + 1).
Proof.
  unfold YearFromTime. cbv zeta. apply year_down_spec.
  - apply year_estimate_hi.
  - rewrite Z2Nat.id; [apply year_estimate_lo|].
    pose proof (Z.abs_nonneg (Day t)). Z.div_mod_to_equations. lia.
Qed.

(** [YearFromTime t] is the largest [y] with [TimeFromYear y <= t]. *)
Lemma YearFromTime_spec t :
  TimeFromYear (YearFromTime t) ≤ t
  ∧ ∀ y, TimeFromYear y ≤ t → y ≤ YearFromTime t.
Proof.
  pose proof (YearFromTime_days t) as [Hlo Hhi].
  pose proof (Day_TimeWithinDay t) as Ht.
  assert (0 ≤ TimeWithinDay t < msPerDay) as Hr
    by (apply Z.mod_pos_bound; by vm_compute).
  assert (0 < msPerDay) as Hpos by (by vm_compute).
  unfold TimeFromYear. split; [nia|].
  intros y Hy. destruct (decide (y ≤ YearFromTime t)) as [|Hgt]; [done|exfalso].
  assert (DayFromYear (YearFromTime t + 1) ≤ DayFromYear y) as Hmono.
  { assert (∀ n : nat, DayFromYear (YearFromTime t + 1)
                       ≤ DayFromYear (YearFromTime t + 1 + Z.of_nat n)) as Hn.
    { induction n as [|n IH]; [by rewrite Z.add_0_r|].
      replace (YearFromTime t + 1 + Z.of_nat (S n))
        with (YearFromTime t + 1 + Z.of_nat n + 1) by lia.
      rewrite (DayFromYear_step (YearFromTime t + 1 + Z.of_nat n)).
      pose proof (DaysInYear_range (YearFromTime t + 1 + Z.of_nat n)). lia. }
    specialize (Hn (Z.to_nat (y - (YearFromTime t + 1)))).
    rewrite Z2Nat.id in Hn by lia.
    by replace (YearFromTime t + 1 + (y - (YearFromTime t + 1))) with y in Hn
      by lia. }
  nia.
Qed.

Lemma DayWithinYear_range t :
  0 ≤ DayWithinYear t < DaysInYear (YearFromTime t).
Proof.
  pose proof (YearFromTime_days t) as H.
  rewrite DayFromYear_step in H. unfold DayWithinYear. lia.
Qed.

(** Moving the date of the month within the month's own numbering moves
    the day number by as much. *)
Lemma MakeDay_DateFromTime t n :
  MakeDay (YearFromTime t) (MonthFromTime t) (DateFromTime t + n) = Day t + n.
Proof.
  pose proof (MonthFromTime_range t) as Hm.
  unfold MakeDay, DateFromTime, DayWithinYear, InLeapYear.
  rewrite (Z.div_small (MonthFromTime t) 12) by lia.
  rewrite (Z.mod_small (MonthFromTime t) 12) by lia.
  rewrite Z.add_0_r. lia.
Qed.

(** [MakeDay] on the year and month of a first of the month [t] counts
    from the day of [t]: its result is the [Day(t) + dt - 1] of ECMA-262. *)
Lemma MakeDay_first_of_month t dt :
  DateFromTime t = 1 →
  MakeDay (YearFromTime t) (MonthFromTime t) dt = Day t + dt - 1.
Proof.
  intros H1. pose proof (MakeDay_DateFromTime t (dt - 1)) as H.
  rewrite H1 in H. replace (1 + (dt - 1)) with dt in H by lia. lia.
Qed.

(** [d.setDate(d.getDate() + n)] keeps the local wall-clock time and moves
    the local calendar day by [n]. *)
Lemma setDate_getDate_add tz t n :
  setDate tz t (getDate tz t + n) = UTC tz (LocalTime tz t + n * msPerDay).
Proof.
  unfold setDate, getDate. cbv zeta.
  rewrite MakeDay_DateFromTime. f_equal. unfold MakeDate.
  pose proof (Day_TimeWithinDay (LocalTime tz t)). lia.
Qed.


(** 2026-03-20T12:00:00Z is the 20th; 2000-02-29 is a leap day. *)
Example getDate_2026_03_20 : getDate (fixedZone 0) 1774008000000 = 20.
Proof. reflexivity. Qed.

Example leap_day_2000 :
  (YearFromTime 951782400000, MonthFromTime 951782400000,
   DateFromTime 951782400000) = (2000, 1, 29).
Proof. reflexivity. Qed.

Example last_day_of_1969 :
  (YearFromTime (-1), MonthFromTime (-1), DateFromTime (-1)) = (1969, 11, 31).
Proof. reflexivity. Qed.

(** British Summer Time 2026 begins at 2026-03-29T01:00:00Z and ends at
    2026-10-25T01:00:00Z. *)
Example bst_2026 : (bstStart, bstEnd) = (1774746000000, 1792890000000).
Proof. reflexivity. Qed.

End DateFacts.

(* ===================================================================== *)
(** ** Counting records and reading the ledger                            *)
(* ===================================================================== *)

Section ListFacts.
Context {A : Type}.
Implicit Types (p : A → bool) (l : list A).

Lemma count_nil p : count p [] = 0%nat.
Proof. reflexivity. Qed.

Lemma count_app p l1 l2 : count p (l1 ++ l2) = (count p l1 + count p l2)%nat.
Proof. unfold count. by rewrite List.filter_app, length_app. Qed.

Lemma count_cons p x l :
  count p (x :: l) = ((if p x then 1 else 0) + count p l)%nat.
Proof. unfold count. simpl. by destruct (p x). Qed.

Lemma count_snoc p l x :
  count p (l ++ [x]) = (count p l + (if p x then 1 else 0))%nat.
Proof. rewrite count_app, count_cons, count_nil. by destruct (p x). Qed.

Lemma count_insert p l i x y :
  l !! i = Some x →
  (count p (<[i := y]> l) + (if p x then 1 else 0))%nat
  = (count p l + (if p y then 1 else 0))%nat.
Proof.
  revert i. induction l as [|z l IH]; intros [|i] Hi; simplify_eq/=.
  - rewrite !count_cons. destruct (p x), (p y); lia.
  - rewrite !count_cons. specialize (IH i Hi). lia.
Qed.

Lemma count_zero p l : count p l = 0%nat ↔ ∀ x, x ∈ l → p x = false.
Proof.
  induction l as [|z l IH].
  - split; [intros _ x Hx; by apply elem_of_nil in Hx | done].
  - rewrite count_cons. split.
    + intros H x Hx. apply elem_of_cons in Hx as [->|Hx].
      * destruct (p z); [lia | done].
      * apply IH; [destruct (p z); lia | done].
    + intros H. rewrite (H z) by left. simpl. apply IH.
      intros x Hx. apply H. by right.
Qed.

Lemma count_pos p l i x : l !! i = Some x → p x = true → (0 < count p l)%nat.
Proof.
  intros Hi Hp. destruct (count p l) eqn:E; [|lia].
  apply count_zero with (x := x) in E; [congruence|].
  by eapply list_elem_of_lookup_2.
Qed.

Lemma count_ext p q l :
  (∀ x, x ∈ l → p x = q x) → count p l = count q l.
Proof.
  induction l as [|z l IH]; intros H; [done|].
  rewrite !count_cons, (H z) by left. f_equal. apply IH.
  intros x Hx. apply H. by right.
Qed.
End ListFacts.

Lemma map_set_fresh k v m : k ∉ m.*1 → map_set k v m = m ++ [(k, v)].
Proof.
  induction m as [|[k' v'] m IH]; intros Hk; [done|]. simpl in *.
  apply not_elem_of_cons in Hk as [Hne Hk].
  rewrite decide_False by done. by rewrite IH.
Qed.

Lemma ledger_of_snoc h b :
  ledger_of (h ++ [b]) = ledger_of h ++ [(Z.of_nat (length h) + 1, length h)].
Proof.
  unfold ledger_of. rewrite imap_app. simpl.
  by rewrite Nat.add_0_r.
Qed.

Lemma ledger_of_length h : length (ledger_of h) = length h.
Proof. unfold ledger_of. by rewrite length_imap. Qed.

Lemma ledger_of_insert h l b : ledger_of (<[l := b]> h) = ledger_of h.
Proof.
  unfold ledger_of. apply list_eq. intros i.
  rewrite !list_lookup_imap.
  destruct (decide (i = l)) as [->|Hne].
  - destruct (decide (l < length h)%nat) as [Hlt|Hge].
    + rewrite list_lookup_insert_eq by done.
      destruct (lookup_lt_is_Some_2 h l Hlt) as [x ->]. done.
    + rewrite list_insert_ge by lia. done.
  - by rewrite list_lookup_insert_ne.
Qed.

Lemma ledger_of_keys h i k v :
  ledger_of h !! i = Some (k, v) → k = Z.of_nat i + 1 ∧ v = i ∧ (i < length h)%nat.
Proof.
  unfold ledger_of. rewrite list_lookup_imap.
  destruct (h !! i) eqn:E; simpl; [|done].
  intros [= <- <-]. split_and!; [done..|]. by eapply lookup_lt_Some.
Qed.

Lemma ledger_of_fresh h : Z.of_nat (length h) + 1 ∉ (ledger_of h).*1.
Proof.
  intros Hin. apply list_elem_of_fmap in Hin as ([k v] & Hk & Hin).
  apply list_elem_of_lookup in Hin as [i Hi].
  apply ledger_of_keys in Hi as (Hk' & _ & Hlt). simpl in Hk. lia.
Qed.

(** Reading the records through such a ledger gives the store back, each
    record with its own location. *)
Lemma omap_ledger_of (pre h : list Borrowing.t) :
  omap (λ kv : Z * loc, (λ b, (kv.2, b)) <$> (pre ++ h) !! kv.2)
       (imap (λ i _, (Z.of_nat (length pre + i) + 1, (length pre + i)%nat)) h)
  = imap (λ i b, ((length pre + i)%nat, b)) h.
Proof.
  revert pre. induction h as [|x h IH]; intros pre; [done|].
  rewrite !imap_cons. cbn [omap list_omap]. simpl.
  rewrite Nat.add_0_r, list_lookup_middle by done. simpl. f_equal.
  specialize (IH (pre ++ [x])).
  rewrite <- app_assoc in IH. simpl in IH.
  rewrite length_app in IH. simpl in IH.
  etrans; [|etrans; [exact IH|]].
  - f_equal. apply imap_ext. intros i y _. simpl.
    by replace (length pre + S i)%nat with (length pre + 1 + i)%nat by lia.
  - apply imap_ext. intros i y _. simpl. f_equal. lia.
Qed.

Lemma ledger_entries_of s :
  borrowings s = ledger_of (heap s) →
  ledger_entries s = imap (λ i b, (i, b)) (heap s).
Proof.
  intros H. unfold ledger_entries. rewrite H.
  exact (omap_ledger_of [] (heap s)).
Qed.

Lemma ledger_values_of s :
  borrowings s = ledger_of (heap s) → ledger_values s = heap s.
Proof.
  intros H. unfold ledger_values. rewrite (ledger_entries_of s H).
  rewrite fmap_imap. apply list_eq. intros i.
  rewrite list_lookup_imap. by destruct (heap s !! i).
Qed.

(* ===================================================================== *)
(** ** The invariant of the three maps                                    *)
(* ===================================================================== *)

Lemma active_of_member_true k b :
  active_of_member k b = true
  ↔ Borrowing.member_id b = k ∧ Borrowing.status b = active.
Proof.
  unfold active_of_member.
  by rewrite andb_true_iff, !bool_decide_eq_true.
Qed.

Lemma active_of_book_true k b :
  active_of_book k b = true
  ↔ Borrowing.book_id b = k ∧ Borrowing.status b = active.
Proof.
  unfold active_of_book.
  by rewrite andb_true_iff, !bool_decide_eq_true.
Qed.

Lemma is_active_loan_true mid bid b :
  is_active_loan mid bid b = true
  ↔ Borrowing.member_id b = mid ∧ Borrowing.book_id b = bid
    ∧ Borrowing.status b = active.
Proof.
  unfold is_active_loan.
  rewrite !andb_true_iff, !bool_decide_eq_true.
  split; [intros [[? ?] ?] | intros (? & ? & ?)]; done.
Qed.

Lemma active_of_member_returned k now b :
  active_of_member k (Borrowing.mark_returned now b) = false.
Proof.
  apply not_true_is_false. rewrite active_of_member_true. by intros [_ ?].
Qed.

Lemma active_of_book_returned k now b :
  active_of_book k (Borrowing.mark_returned now b) = false.
Proof.
  apply not_true_is_false. rewrite active_of_book_true. by intros [_ ?].
Qed.

Section Invariant.
Variable LocalTZA : Z → bool → Z.
Local Abbreviation consistent := (consistent LocalTZA).

Lemma absent_member_no_active s k :
  consistent s → members s !! k = None →
  count (active_of_member k) (heap s) = 0%nat.
Proof.
  intros Hc Hk. apply count_zero. intros b Hb.
  apply not_true_is_false. intros [Hm Ha]%active_of_member_true.
  apply list_elem_of_lookup in Hb as [l Hl].
  destruct (c_ref_member _ s Hc l b Hl Ha) as [m Hm']. congruence.
Qed.

Lemma absent_book_no_active s k :
  consistent s → books s !! k = None →
  count (active_of_book k) (heap s) = 0%nat.
Proof.
  intros Hc Hk. apply count_zero. intros b Hb.
  apply not_true_is_false. intros [Hm Ha]%active_of_book_true.
  apply list_elem_of_lookup in Hb as [l Hl].
  destruct (c_ref_book _ s Hc l b Hl Ha) as [m Hm']. congruence.
Qed.

Lemma find_active_Some s mid bid l b :
  borrowings s = ledger_of (heap s) →
  List.find (λ e, is_active_loan mid bid e.2) (ledger_entries s) = Some (l, b) →
  heap s !! l = Some b ∧ is_active_loan mid bid b = true.
Proof.
  intros Hl Hf. apply find_some in Hf as [Hin Hp]. split; [|done].
  rewrite (ledger_entries_of s Hl) in Hin.
  apply list_elem_of_In, elem_of_lookup_imap in Hin as (i & x & [= -> ->] & Hi).
  done.
Qed.

Lemma find_active_None s mid bid :
  borrowings s = ledger_of (heap s) →
  List.find (λ e, is_active_loan mid bid e.2) (ledger_entries s) = None →
  ∀ l b, heap s !! l = Some b → is_active_loan mid bid b = false.
Proof.
  intros Hl Hf l b Hb.
  apply (find_none _ _ Hf (l, b)).
  rewrite (ledger_entries_of s Hl).
  apply list_elem_of_In. by apply (elem_of_lookup_imap_2 (λ i b, (i, b))).
Qed.

Lemma consistent_init : consistent init.
Proof.
  split; simpl; done.
Qed.

Lemma consistent_create_member i n a s :
  consistent s → consistent (create_member i n a s).2.
Proof.
  intros Hc. unfold create_member.
  destruct i as [id|], n as [nm|], a as [ag|]; try done.
  repeat case_match; try done. simpl.
  match goal with H : bool_decide (is_Some _) = false |- _ =>
    apply bool_decide_eq_false, eq_None_not_Some in H; rename H into Hnone end.
  pose proof Hc as [Hled Htid Hmem Hbook Hrm Hrb Hhist Hdue Hmk Hbk' Hah Hnd Hao].
  split; simpl; try done.
  - intros k m. rewrite lookup_insert. destruct (decide (id = k)) as [<-|Hk].
    + intros [= <-]. simpl. by apply absent_member_no_active.
    + by apply Hmem.
  - intros l b Hl Ha. rewrite lookup_insert_is_Some'. right. eauto.
  - intros k m l. rewrite lookup_insert. destruct (decide (id = k)) as [<-|Hk].
    + intros [= <-]. simpl. by intros ?%elem_of_nil.
    + by apply Hhist.
  - intros k m. rewrite lookup_insert. destruct (decide (id = k)) as [<-|Hk].
    + by intros [= <-].
    + by apply Hmk.
  - intros l b Hl Ha. destruct (Hah l b Hl Ha) as (m & Hm & Hin).
    exists m. split; [|done]. rewrite lookup_insert_ne; [done|congruence].
  - intros k m. rewrite lookup_insert. destruct (decide (id = k)) as [<-|Hk].
    + intros [= <-]. simpl. apply NoDup_nil_2.
    + by apply Hnd.
Qed.

Lemma consistent_update_member id n a s :
  consistent s → consistent (update_member id n a s).2.
Proof.
  intros Hc. unfold update_member.
  destruct (members s !! id) as [member|] eqn:Hm; [|done].
  destruct (match a with Some a0 => bool_decide (a0 < 12) | None => false end);
    [done|].
  cbv zeta.
  match goal with |- consistent (_, mkState (<[_ := ?m2]> _) _ _ _).2 =>
    set (member2 := m2) end.
  assert (Member.has_borrowed member2 = Member.has_borrowed member
          ∧ Member.history member2 = Member.history member
          ∧ Member.member_id member2 = Member.member_id member)
    as (Hhb & Hhi & Hid).
  { subst member2. destruct n, a; simpl; repeat case_match; done. }
  clearbody member2. simpl.
  pose proof Hc as [Hled Htid Hmem Hbook Hrm Hrb Hhist Hdue Hmk Hbk' Hah Hnd Hao].
  split; simpl; try done.
  - intros k m. rewrite lookup_insert. destruct (decide (id = k)) as [<-|Hk].
    + intros [= <-]. rewrite Hhb. by apply Hmem.
    + by apply Hmem.
  - intros l b Hl Ha. rewrite lookup_insert_is_Some'. right. eauto.
  - intros k m l. rewrite lookup_insert. destruct (decide (id = k)) as [<-|Hk].
    + intros [= <-]. rewrite Hhi. by apply Hhist.
    + by apply Hhist.
  - intros k m. rewrite lookup_insert. destruct (decide (id = k)) as [<-|Hk].
    + intros [= <-]. rewrite Hid. by apply Hmk.
    + by apply Hmk.
  - intros l b Hl Ha. destruct (Hah l b Hl Ha) as (m & Hm' & Hin).
    rewrite lookup_insert. destruct (decide (id = Borrowing.member_id b)) as [He|He].
    + exists member2. split; [done|]. rewrite Hhi.
      by replace member with m by congruence.
    + by exists m.
  - intros k m. rewrite lookup_insert. destruct (decide (id = k)) as [<-|Hk].
    + intros [= <-]. rewrite Hhi. by eapply Hnd.
    + by apply Hnd.
Qed.

Lemma consistent_add_book i t a n s :
  consistent s → consistent (add_book i t a n s).2.
Proof.
  intros Hc. unfold add_book.
  destruct i as [id|], t as [ti|], a as [au|], n as [isb|]; try done.
  repeat case_match; try done. simpl.
  match goal with H : bool_decide (is_Some _) = false |- _ =>
    apply bool_decide_eq_false, eq_None_not_Some in H; rename H into Hnone end.
  pose proof Hc as [Hled Htid Hmem Hbook Hrm Hrb Hhist Hdue Hmk Hbk' Hah Hnd Hao].
  split; simpl; try done.
  - intros k m. rewrite lookup_insert. destruct (decide (id = k)) as [<-|Hk].
    + intros [= <-]. simpl. by apply absent_book_no_active.
    + by apply Hbook.
  - intros l b Hl Ha. rewrite lookup_insert_is_Some'. right. eauto.
  - intros k m. rewrite lookup_insert. destruct (decide (id = k)) as [<-|Hk].
    + by intros [= <-].
    + by apply Hbk'.
Qed.

Lemma consistent_delete_member id s :
  consistent s → consistent (delete_member id s).2.
Proof.
  intros Hc. unfold delete_member.
  destruct (members s !! id) as [member|] eqn:Hm; [|done].
  destruct (Member.has_borrowed member) eqn:Hhb; [done|]. simpl.
  pose proof Hc as [Hled Htid Hmem Hbook Hrm Hrb Hhist Hdue Hmk Hbk' Hah Hnd Hao].
  split; simpl; try done.
  - intros k m [Hk Hkm]%lookup_delete_Some. by apply Hmem.
  - intros l b Hl Ha. rewrite lookup_delete_ne; [by eauto|].
    intros Heq. specialize (Hmem id member Hm). rewrite Hhb in Hmem.
    pose proof (count_pos (active_of_member id) (heap s) l b Hl) as Hpos.
    rewrite active_of_member_true in Hpos. specialize (Hpos (conj (eq_sym Heq) Ha)).
    lia.
  - intros k m l [Hk Hkm]%lookup_delete_Some. by apply Hhist.
  - intros k m [Hk Hkm]%lookup_delete_Some. by apply Hmk.
  - intros l b Hl Ha. destruct (Hah l b Hl Ha) as (m & Hm' & Hin).
    exists m. split; [|done]. rewrite lookup_delete_ne; [done|].
    intros Heq. specialize (Hmem id member Hm). rewrite Hhb in Hmem.
    pose proof (count_pos (active_of_member id) (heap s) l b Hl) as Hpos.
    rewrite active_of_member_true in Hpos. specialize (Hpos (conj (eq_sym Heq) Ha)).
    lia.
  - intros k m [Hk Hkm]%lookup_delete_Some. by eapply Hnd.
Qed.

Lemma existsb_active_on_book_false id l :
  existsb (is_active_on_book id) l = false → count (active_of_book id) l = 0%nat.
Proof.
  intros H. apply count_zero. intros b Hb.
  apply not_true_is_false. intros Ht.
  assert (existsb (is_active_on_book id) l = true) as Hex; [|congruence].
  apply existsb_exists. exists b. split; [by apply list_elem_of_In|done].
Qed.

Lemma consistent_delete_book id s :
  consistent s → consistent (delete_book id s).2.
Proof.
  intros Hc. unfold delete_book.
  destruct (books s !! id) as [book|] eqn:Hb; [|done].
  destruct (existsb _ _) eqn:Hex; [done|]. simpl.
  pose proof Hc as [Hled Htid Hmem Hbook Hrm Hrb Hhist Hdue Hmk Hbk' Hah Hnd Hao].
  rewrite (ledger_values_of s Hled) in Hex.
  apply existsb_active_on_book_false in Hex.
  split; simpl; try done.
  - intros k m [Hk Hkm]%lookup_delete_Some. by apply Hbook.
  - intros l b Hl Ha. rewrite lookup_delete_ne; [by eauto|].
    intros Heq.
    pose proof (count_pos (active_of_book id) (heap s) l b Hl) as Hpos.
    rewrite active_of_book_true in Hpos. specialize (Hpos (conj (eq_sym Heq) Ha)).
    lia.
  - intros k m [Hk Hkm]%lookup_delete_Some. by apply Hbk'.
Qed.

Lemma borrow_Ok now mid bid s r s' :
  borrow LocalTZA now mid bid s = (Ok r, s') →
  ∃ m b,
    members s !! mid = Some m ∧ books s !! bid = Some b
    ∧ Member.has_borrowed m = false ∧ Book.is_available b = true
    ∧ r = Borrowing.mk (map_size (borrowings s) + 1) mid (Member.name m) bid
            (Book.title b) now
            (Date.setDate LocalTZA now (Date.getDate LocalTZA now + 14))
            active None
    ∧ s' = mkState
        (<[mid := Member.push_history (length (heap s))
                    (Member.set_has_borrowed true m)]> (members s))
        (<[bid := Book.set_is_available false b]> (books s))
        (map_set (map_size (borrowings s) + 1) (length (heap s)) (borrowings s))
        (heap s ++ [r]).
Proof.
  unfold borrow. intros H.
  destruct (members s !! mid) as [m|]; [|done].
  destruct (books s !! bid) as [b|]; [|done].
  destruct (Member.has_borrowed m) eqn:Hm; [done|].
  destruct (Book.is_available b) eqn:Hb; [|done].
  simpl in H. injection H as <- <-. by exists m, b.
Qed.

Lemma borrow_not_Ok now mid bid s :
  (∀ r, (borrow LocalTZA now mid bid s).1 ≠ Ok r) →
  (borrow LocalTZA now mid bid s).2 = s.
Proof.
  unfold borrow. intros H.
  destruct (members s !! mid) as [m|]; [|done].
  destruct (books s !! bid) as [b|]; [|done].
  destruct (Member.has_borrowed m) eqn:Hm; [done|].
  destruct (Book.is_available b) eqn:Hb; [|done].
  simpl in H. by edestruct H.
Qed.

Lemma consistent_borrow now mid bid s :
  consistent s → consistent (borrow LocalTZA now mid bid s).2.
Proof.
  intros Hc.
  destruct (borrow LocalTZA now mid bid s) as [[r|e|] s'] eqn:E; simpl.
  2,3: pose proof (borrow_not_Ok now mid bid s) as Hs; rewrite E in Hs;
       simpl in Hs; by rewrite Hs.
  apply borrow_Ok in E as (m & b & Hm & Hb & Hmf & Hbf & Hr & ->).
  pose proof Hc as [Hled Htid Hmem Hbook Hrm Hrb Hhist Hdue Hmk Hbk' Hah Hnd Hao].
  assert (Borrowing.member_id r = mid ∧ Borrowing.book_id r = bid
          ∧ Borrowing.status r = active) as (Hrmid & Hrbid & Hract)
    by (by subst r).
  split; simpl.
  - rewrite Hled. unfold map_size. rewrite ledger_of_length.
    rewrite map_set_fresh by apply ledger_of_fresh.
    by rewrite ledger_of_snoc.
  - intros l b0 Hl. apply lookup_app_Some in Hl as [Hl|[Hge Hl]]; [by eauto|].
    apply list_lookup_singleton_Some in Hl as [Hl <-].
    rewrite Hr. simpl. unfold map_size. rewrite Hled, ledger_of_length. lia.
  - intros k m0. rewrite count_snoc, lookup_insert.
    destruct (decide (mid = k)) as [<-|Hk].
    + intros [= <-]. simpl. rewrite (Hmem _ _ Hm), Hmf.
      rewrite (proj2 (active_of_member_true mid r)) by done. done.
    + intros Hk0. rewrite (Hmem _ _ Hk0).
      destruct (active_of_member k r) eqn:Hp; [|lia].
      apply active_of_member_true in Hp as [? _]. congruence.
  - intros k b0. rewrite count_snoc, lookup_insert.
    destruct (decide (bid = k)) as [<-|Hk].
    + intros [= <-]. simpl. rewrite (Hbook _ _ Hb), Hbf.
      rewrite (proj2 (active_of_book_true bid r)) by done. done.
    + intros Hk0. rewrite (Hbook _ _ Hk0).
      destruct (active_of_book k r) eqn:Hp; [|lia].
      apply active_of_book_true in Hp as [? _]. congruence.
  - intros l b0 Hl Ha. rewrite lookup_insert_is_Some'.
    apply lookup_app_Some in Hl as [Hl|[Hge Hl]]; [right; by eauto|].
    apply list_lookup_singleton_Some in Hl as [Hl <-]. by left.
  - intros l b0 Hl Ha. rewrite lookup_insert_is_Some'.
    apply lookup_app_Some in Hl as [Hl|[Hge Hl]]; [right; by eauto|].
    apply list_lookup_singleton_Some in Hl as [Hl <-]. by left.
  - intros k m0 l. rewrite lookup_insert.
    destruct (decide (mid = k)) as [<-|Hk].
    + intros [= <-]. simpl. intros [Hin| ->%list_elem_of_singleton]%elem_of_app.
      * destruct (Hhist _ _ _ Hm Hin) as (b0 & Hb0 & Hb0m).
        exists b0. split; [|done]. by apply lookup_app_l_Some.
      * exists r. split; [|done]. by apply list_lookup_middle.
    + intros Hk0 Hin. destruct (Hhist _ _ _ Hk0 Hin) as (b0 & Hb0 & Hb0m).
      exists b0. split; [|done]. by apply lookup_app_l_Some.
  - intros l b0 Hl. apply lookup_app_Some in Hl as [Hl|[Hge Hl]]; [by eauto|].
    apply list_lookup_singleton_Some in Hl as [Hl <-].
    rewrite Hr. simpl. apply DateFacts.setDate_getDate_add.
  - intros k m0. rewrite lookup_insert. destruct (decide (mid = k)) as [<-|Hk].
    + intros [= <-]. simpl. by apply Hmk.
    + by apply Hmk.
  - intros k b0. rewrite lookup_insert. destruct (decide (bid = k)) as [<-|Hk].
    + intros [= <-]. simpl. by apply Hbk'.
    + by apply Hbk'.
  - intros l b0 Hl Ha. rewrite lookup_insert.
    apply lookup_app_Some in Hl as [Hl|[Hge Hl]].
    + destruct (Hah l b0 Hl Ha) as (m0 & Hm0 & Hin).
      destruct (decide (mid = Borrowing.member_id b0)) as [He|He]; [|by exists m0].
      eexists. split; [done|]. simpl. apply elem_of_app. left.
      by replace m with m0 by congruence.
    + apply list_lookup_singleton_Some in Hl as [Hl <-].
      rewrite Hrmid, decide_True by done. eexists. split; [done|]. simpl.
      apply elem_of_app. right. apply list_elem_of_singleton. lia.
  - intros k m0. rewrite lookup_insert. destruct (decide (mid = k)) as [<-|Hk].
    + intros [= <-]. simpl. rewrite list.NoDup_app. split_and!.
      * by eapply Hnd.
      * intros l Hin ->%list_elem_of_singleton.
        destruct (Hhist _ _ _ Hm Hin) as (b0 & Hb0 & _).
        apply lookup_lt_Some in Hb0. lia.
      * apply NoDup_singleton.
    + by apply Hnd.
  - intros l b0 Hl Ha. apply lookup_app_Some in Hl as [Hl|[Hge Hl]]; [by eauto|].
    apply list_lookup_singleton_Some in Hl as [Hl <-]. by rewrite Hr.
Qed.

Lemma return_Ok now mid bid s r s' :
  return_book now mid bid s = (Ok r, s') →
  ∃ m l b0 bk,
    members s !! mid = Some m
    ∧ List.find (λ e, is_active_loan mid bid e.2) (ledger_entries s) = Some (l, b0)
    ∧ books s !! bid = Some bk
    ∧ r = Borrowing.mark_returned now b0
    ∧ s' = mkState
        (<[mid := Member.set_has_borrowed false m]> (members s))
        (<[bid := Book.set_is_available true bk]> (books s))
        (borrowings s)
        (<[l := r]> (heap s)).
Proof.
  unfold return_book. intros H.
  destruct (members s !! mid) as [m|]; [|done].
  destruct (List.find _ _) as [[l b0]|]; [|done].
  destruct (books s !! bid) as [bk|]; [|done].
  simpl in H. injection H as <- <-. by exists m, l, b0, bk.
Qed.

Lemma return_Fail now mid bid s e s' :
  return_book now mid bid s = (Fail e, s') → s' = s.
Proof.
  unfold return_book. intros H.
  destruct (members s !! mid) as [m|]; [|by injection H].
  destruct (List.find _ _) as [[l b0]|]; [|by injection H].
  by destruct (books s !! bid).
Qed.

(** In a consistent state the book of an active record is in the catalog,
    so a return never reaches the assignment to a missing book. *)
Lemma return_no_throw now mid bid s :
  consistent s → (return_book now mid bid s).1 ≠ Throws.
Proof.
  intros Hc. unfold return_book.
  destruct (members s !! mid) as [m|]; [|done].
  destruct (List.find _ _) as [[l b0]|] eqn:Hf; [|done].
  apply find_active_Some in Hf as [Hl Hp]; [|by apply (c_ledger LocalTZA)].
  apply is_active_loan_true in Hp as (Hm & Hb & Ha).
  destruct (c_ref_book _ s Hc l b0 Hl Ha) as [bk Hbk].
  rewrite Hb in Hbk. by rewrite Hbk.
Qed.

Lemma consistent_return_book now mid bid s :
  consistent s → consistent (return_book now mid bid s).2.
Proof.
  intros Hc.
  pose proof (return_no_throw now mid bid s Hc) as Hnt.
  destruct (return_book now mid bid s) as [[r|e|] s'] eqn:E; simpl; [| |done].
  2: { apply return_Fail in E. by subst. }
  apply return_Ok in E as (m & l & b0 & bk & Hm & Hf & Hbk & Hr & ->).
  pose proof Hc as [Hled Htid Hmem Hbook Hrm Hrb Hhist Hdue Hmk Hbk' Hah Hnd Hao].
  apply find_active_Some in Hf as [Hl Hp]; [|done].
  apply is_active_loan_true in Hp as (Hb0m & Hb0b & Hb0a).
  assert (l < length (heap s))%nat as Hlt by (by eapply lookup_lt_Some).
  assert (∀ l' b', <[l := r]> (heap s) !! l' = Some b' →
            (l' = l ∧ b' = r) ∨ (l' ≠ l ∧ heap s !! l' = Some b')) as Hlook.
  { intros l' b'. destruct (decide (l' = l)) as [->|Hne].
    - rewrite list_lookup_insert_eq by done. intros [= <-]. by left.
    - rewrite list_lookup_insert_ne by done. by right. }
  split; simpl.
  - by rewrite ledger_of_insert.
  - intros l' b' [[-> ->]|[Hne Hl']]%Hlook; [|by eauto].
    subst r. simpl. by apply Htid.
  - intros k m0 Hk.
    pose proof (count_insert (active_of_member k) (heap s) l b0 r Hl) as Hci.
    rewrite Hr, active_of_member_returned, <- Hr in Hci.
    rewrite lookup_insert in Hk. destruct (decide (mid = k)) as [<-|Hne].
    + injection Hk as <-. simpl.
      rewrite (proj2 (active_of_member_true mid b0)) in Hci by done.
      specialize (Hmem _ _ Hm). destruct (Member.has_borrowed m); lia.
    + rewrite <- (Hmem _ _ Hk).
      destruct (active_of_member k b0) eqn:Hp; [|lia].
      apply active_of_member_true in Hp as [? _]. congruence.
  - intros k bk0 Hk.
    pose proof (count_insert (active_of_book k) (heap s) l b0 r Hl) as Hci.
    rewrite Hr, active_of_book_returned, <- Hr in Hci.
    rewrite lookup_insert in Hk. destruct (decide (bid = k)) as [<-|Hne].
    + injection Hk as <-. simpl.
      rewrite (proj2 (active_of_book_true bid b0)) in Hci by done.
      specialize (Hbook _ _ Hbk). destruct (Book.is_available bk); lia.
    + rewrite <- (Hbook _ _ Hk).
      destruct (active_of_book k b0) eqn:Hp; [|lia].
      apply active_of_book_true in Hp as [? _]. congruence.
  - intros l' b' [[-> ->]|[Hne Hl']]%Hlook Ha; [by subst r|].
    rewrite lookup_insert_is_Some'. right. by eauto.
  - intros l' b' [[-> ->]|[Hne Hl']]%Hlook Ha; [by subst r|].
    rewrite lookup_insert_is_Some'. right. by eauto.
  - intros k m0 l' Hk Hin.
    assert (∃ b', heap s !! l' = Some b' ∧ Borrowing.member_id b' = k)
      as (b' & Hb' & Hb'k).
    { rewrite lookup_insert in Hk. destruct (decide (mid = k)) as [<-|Hne].
      - injection Hk as <-. by apply (Hhist mid m l').
      - by apply (Hhist k m0 l'). }
    destruct (decide (l' = l)) as [->|Hne].
    + exists r. rewrite list_lookup_insert_eq by done. split; [done|].
      subst r. simpl. congruence.
    + exists b'. by rewrite list_lookup_insert_ne.
  - intros l' b' [[-> ->]|[Hne Hl']]%Hlook; [|by eauto].
    subst r. simpl. exact (Hdue l b0 Hl).
  - intros k m0. rewrite lookup_insert. destruct (decide (mid = k)) as [<-|Hk].
    + intros [= <-]. simpl. by apply Hmk.
    + by apply Hmk.
  - intros k b1. rewrite lookup_insert. destruct (decide (bid = k)) as [<-|Hk].
    + intros [= <-]. simpl. by apply Hbk'.
    + by apply Hbk'.
  - intros l' b' [[-> ->]|[Hne Hl']]%Hlook Ha; [by subst r|].
    destruct (Hah l' b' Hl' Ha) as (m0 & Hm0 & Hin).
    rewrite lookup_insert.
    destruct (decide (mid = Borrowing.member_id b')) as [He|He]; [|by exists m0].
    eexists. split; [done|]. simpl. by replace m with m0 by congruence.
  - intros k m0. rewrite lookup_insert. destruct (decide (mid = k)) as [<-|Hk].
    + intros [= <-]. simpl. by eapply Hnd.
    + by apply Hnd.
  - intros l' b' [[-> ->]|[Hne Hl']]%Hlook Ha; [by subst r|]. by eauto.
Qed.

Lemma consistent_exec op s : consistent s → consistent (exec LocalTZA op s).
Proof.
  destruct op; simpl;
    auto using consistent_create_member, consistent_update_member,
      consistent_borrow, consistent_return_book, consistent_delete_member,
      consistent_add_book, consistent_delete_book.
Qed.

Lemma reachable_consistent s : reachable LocalTZA s → consistent s.
Proof.
  induction 1 as [|op s _ IH]; [apply consistent_init | by apply consistent_exec].
Qed.

Lemma reachable_run ops s :
  reachable LocalTZA s → reachable LocalTZA (run LocalTZA ops s).
Proof.
  revert s. induction ops as [|op ops IH]; intros s Hs; [done|].
  simpl. apply IH. by constructor.
Qed.

End Invariant.

(* ===================================================================== *)
(** ** The flags and the ledger, transaction ids                     *)
(* ===================================================================== *)

(** C1: in every state a run of the server can reach, a member's
    [has_borrowed] is true exactly when the ledger holds exactly one active
    borrowing with that member's id, and a book's [is_available] is false
    exactly when the ledger holds exactly one active borrowing with that
    book's id. *)
Theorem flags_agree_with_ledger tz s :
  reachable tz s →
  (∀ k m, members s !! k = Some m →
     Member.member_id m = k
     ∧ (active_loans_of_member k s ≤ 1)%nat
     ∧ (Member.has_borrowed m = true ↔ active_loans_of_member k s = 1%nat))
  ∧ (∀ k b, books s !! k = Some b →
     Book.book_id b = k
     ∧ (active_loans_of_book k s ≤ 1)%nat
     ∧ (Book.is_available b = false ↔ active_loans_of_book k s = 1%nat)).
Proof.
  intros Hc%reachable_consistent.
  unfold active_loans_of_member, active_loans_of_book.
  rewrite (ledger_values_of s (c_ledger _ s Hc)).
  split.
  - intros k m Hm. split; [by eapply c_member_key|].
    rewrite (c_member _ s Hc k m Hm).
    destruct (Member.has_borrowed m); split; (lia || done).
  - intros k b Hb. split; [by eapply c_book_key|].
    rewrite (c_book _ s Hc k b Hb).
    destruct (Book.is_available b); split; (lia || done).
Qed.

(** After member 1 borrowed book 101, both flags are set and each has its
    one active record. *)
Lemma flags_agree_with_ledger_witness :
  reachable Demo.utc (Demo.lent Demo.utc Demo.spring_noon)
  ∧ (Member.has_borrowed (Member.mk 1 "Ada" 30 true [0%nat]) = true
     ↔ active_loans_of_member 1 (Demo.lent Demo.utc Demo.spring_noon) = 1%nat)
  ∧ (Book.is_available
       (Book.mk 101 "Dune" "Frank Herbert" "9780441013593" false) = false
     ↔ active_loans_of_book 101 (Demo.lent Demo.utc Demo.spring_noon) = 1%nat).
Proof.
  pose proof (reachable_run Demo.utc (Demo.stock ++ [Borrow Demo.spring_noon 1 101])
                init (reachable_init Demo.utc)) as Hr.
  split; [exact Hr|].
  destruct (flags_agree_with_ledger Demo.utc _ Hr) as [Hm Hb].
  split.
  - exact (proj2 (proj2 (Hm 1 (Member.mk 1 "Ada" 30 true [0%nat]) eq_refl))).
  - exact (proj2 (proj2 (Hb 101
             (Book.mk 101 "Dune" "Frank Herbert" "9780441013593" false)
             eq_refl))).
Defined.

Lemma seq_StronglySorted j n : StronglySorted lt (seq j n).
Proof.
  revert j. induction n as [|n IH]; intros j; simpl; constructor; [apply IH|].
  apply Forall_seq. intros; lia.
Qed.

Lemma seqZ_StronglySorted m n : StronglySorted Z.lt (seqZ m n).
Proof.
  unfold seqZ. eapply StronglySorted_fmap; [|apply seq_StronglySorted].
  intros x y Hxy. simpl. lia.
Qed.

Lemma assigned_ids_seqZ tz s :
  consistent tz s → assigned_ids s = seqZ 1 (Z.of_nat (length (heap s))).
Proof.
  intros Hc. unfold assigned_ids. apply list_eq. intros i. apply option_eq.
  intros x. rewrite lookup_seqZ, list_lookup_fmap, fmap_Some. split.
  - intros (b & Hb & ->). rewrite (c_tid _ s Hc i b Hb).
    apply lookup_lt_Some in Hb. lia.
  - intros [-> Hlt].
    destruct (lookup_lt_is_Some_2 (heap s) i) as [b Hb]; [lia|].
    exists b. split; [done|]. rewrite (c_tid _ s Hc i b Hb). lia.
Qed.

Lemma ledger_of_keys_ids tz s :
  consistent tz s → (borrowings s).*1 = assigned_ids s.
Proof.
  intros Hc. rewrite (c_ledger _ s Hc). unfold assigned_ids, ledger_of.
  rewrite fmap_imap. apply list_eq. intros i.
  rewrite list_lookup_imap, list_lookup_fmap.
  destruct (heap s !! i) as [b|] eqn:Hb; simpl; [|done].
  by rewrite (c_tid _ s Hc i b Hb).
Qed.

(** C8: in every reachable state the transaction ids handed out so far,
    read in the order they were assigned, are 1, 2, ..., n: no id occurs
    twice and each is larger than the ones before it; the ledger files each
    record under its own id, and the id the next Borrow assigns (ledger
    size plus one) is larger than every id in use. *)
Theorem transaction_ids_unique_increasing tz s :
  reachable tz s →
  (borrowings s).*1 = assigned_ids s
  ∧ assigned_ids s = seqZ 1 (map_size (borrowings s))
  ∧ StronglySorted Z.lt (assigned_ids s)
  ∧ NoDup (assigned_ids s)
  ∧ (∀ now mid bid r s', borrow tz now mid bid s = (Ok r, s') →
       Borrowing.transaction_id r = map_size (borrowings s) + 1
       ∧ assigned_ids s' = assigned_ids s ++ [Borrowing.transaction_id r]
       ∧ ∀ k, k ∈ assigned_ids s → k < Borrowing.transaction_id r).
Proof.
  intros Hc%reachable_consistent.
  pose proof (assigned_ids_seqZ tz s Hc) as Hids.
  assert (map_size (borrowings s) = Z.of_nat (length (heap s))) as Hsz.
  { unfold map_size. by rewrite (c_ledger _ s Hc), ledger_of_length. }
  split_and!.
  - by eapply ledger_of_keys_ids.
  - by rewrite Hsz.
  - rewrite Hids. apply seqZ_StronglySorted.
  - rewrite Hids. apply NoDup_seqZ.
  - intros now mid bid r s' (m & b & _ & _ & _ & _ & Hr & ->)%borrow_Ok.
    split_and!.
    + by subst r.
    + unfold assigned_ids. simpl. by rewrite fmap_app.
    + intros k. rewrite Hids, elem_of_seqZ. subst r. simpl. lia.
Qed.

(** After the first borrow the ids in use are just [1]. *)
Lemma transaction_ids_unique_increasing_witness :
  reachable Demo.utc (Demo.lent Demo.utc Demo.spring_noon)
  ∧ assigned_ids (Demo.lent Demo.utc Demo.spring_noon) = [1]
  ∧ StronglySorted Z.lt (assigned_ids (Demo.lent Demo.utc Demo.spring_noon))
  ∧ NoDup (assigned_ids (Demo.lent Demo.utc Demo.spring_noon)).
Proof.
  pose proof (reachable_run Demo.utc (Demo.stock ++ [Borrow Demo.spring_noon 1 101])
                init (reachable_init Demo.utc)) as Hr.
  split; [exact Hr|]. split; [reflexivity|].
  destruct (transaction_ids_unique_increasing Demo.utc _ Hr)
    as (_ & _ & Hs & Hn & _).
  by split.
Defined.

(* ===================================================================== *)
(** ** Borrow                                                        *)
(* ===================================================================== *)

(** C2: Borrow checks its four preconditions in order and the first one
    that fails decides the answer: unknown member, then unknown book, then
    a member who has already borrowed, then a book that is not available;
    it succeeds exactly when all four hold. *)
Theorem borrow_precondition_order tz now mid bid s :
  (members s !! mid = None →
     (borrow tz now mid bid s).1 = Fail NotFound_member)
  ∧ (∀ m, members s !! mid = Some m → books s !! bid = None →
     (borrow tz now mid bid s).1 = Fail NotFound_book)
  ∧ (∀ m b, members s !! mid = Some m → books s !! bid = Some b →
     Member.has_borrowed m = true →
     (borrow tz now mid bid s).1 = Fail Conflict_already_borrowed)
  ∧ (∀ m b, members s !! mid = Some m → books s !! bid = Some b →
     Member.has_borrowed m = false → Book.is_available b = false →
     (borrow tz now mid bid s).1 = Fail Conflict_unavailable)
  ∧ ((∃ r, (borrow tz now mid bid s).1 = Ok r)
     ↔ ∃ m b, members s !! mid = Some m ∧ books s !! bid = Some b
              ∧ Member.has_borrowed m = false ∧ Book.is_available b = true)
  ∧ http_status NotFound_member = 404 ∧ http_status NotFound_book = 404
  ∧ http_status Conflict_already_borrowed = 400
  ∧ http_status Conflict_unavailable = 400.
Proof.
  unfold borrow. split_and!; try done.
  - by intros ->.
  - by intros m -> ->.
  - by intros m b -> -> ->.
  - by intros m b -> -> -> ->.
  - split.
    + intros [r Hr].
      destruct (members s !! mid) as [m|]; [|done].
      destruct (books s !! bid) as [b|]; [|done].
      destruct (Member.has_borrowed m) eqn:Hm; [done|].
      destruct (Book.is_available b) eqn:Hb; [|done].
      by exists m, b.
    + intros (m & b & -> & -> & -> & ->). simpl. eauto.
Qed.

(** C3: a successful Borrow numbers the new record with the ledger size
    plus one, stamps it with the current time, sets its due date, copies
    the member's name and the book's title as they are now, marks it
    active, adds it to the ledger as a new last entry, appends the same
    record (the same location) to the member's history, sets the member's
    [has_borrowed] and clears the book's [is_available], and answers with
    the record; nothing else changes. *)
Theorem borrow_success_effects tz now mid bid s r s' :
  reachable tz s →
  borrow tz now mid bid s = (Ok r, s') →
  ∃ m b,
    members s !! mid = Some m ∧ books s !! bid = Some b
    ∧ r = Borrowing.mk (map_size (borrowings s) + 1) mid (Member.name m) bid
            (Book.title b) now
            (Date.UTC tz (Date.LocalTime tz now + 14 * Date.msPerDay))
            active None
    ∧ borrowings s'
      = borrowings s ++ [(Borrowing.transaction_id r, length (heap s))]
    ∧ heap s' = heap s ++ [r]
    ∧ heap s' !! length (heap s) = Some r
    ∧ members s'
      = <[mid := Member.mk (Member.member_id m) (Member.name m) (Member.age m)
                   true (Member.history m ++ [length (heap s)])]> (members s)
    ∧ books s'
      = <[bid := Book.mk (Book.book_id b) (Book.title b) (Book.author b)
                   (Book.isbn b) false]> (books s).
Proof.
  intros Hc%reachable_consistent
    (m & b & Hm & Hb & _ & _ & Hr & ->)%borrow_Ok.
  rewrite DateFacts.setDate_getDate_add in Hr.
  exists m, b. simpl. split_and!; try done.
  - rewrite Hr at 1. simpl. unfold map_size.
    rewrite (c_ledger _ s Hc), ledger_of_length.
    by apply map_set_fresh, ledger_of_fresh.
  - by apply list_lookup_middle.
Qed.

(** The first borrow of the demo run, on a host on UTC. *)
Lemma borrow_success_effects_witness :
  reachable Demo.utc (Demo.stocked Demo.utc)
  ∧ borrow Demo.utc Demo.spring_noon 1 101 (Demo.stocked Demo.utc)
    = (Ok Demo.first_loan, Demo.lent Demo.utc Demo.spring_noon)
  ∧ heap (Demo.lent Demo.utc Demo.spring_noon) = [Demo.first_loan]
  ∧ borrowings (Demo.lent Demo.utc Demo.spring_noon) = [(1, 0%nat)].
Proof.
  pose proof (reachable_run Demo.utc Demo.stock init (reachable_init Demo.utc))
    as Hr.
  assert (borrow Demo.utc Demo.spring_noon 1 101 (Demo.stocked Demo.utc)
          = (Ok Demo.first_loan, Demo.lent Demo.utc Demo.spring_noon)) as Hb
    by reflexivity.
  split; [exact Hr|]. split; [exact Hb|].
  destruct (borrow_success_effects Demo.utc _ _ _ _ _ _ Hr Hb)
    as (m & b & _ & _ & _ & Hl & Hh & _).
  split; [exact Hh | exact Hl].
Defined.

(* ===================================================================== *)
(** ** Return                                                        *)
(* ===================================================================== *)

(** C4: Return answers "member not found" when the member is unknown;
    otherwise "no active borrowing" when no ledger record is active for
    that member and that book; otherwise it marks that record returned,
    stamps [returned_at] with the current time, clears the member's
    [has_borrowed], sets the book's [is_available], and answers with the
    updated record. *)
Theorem return_behaviour tz now mid bid s :
  reachable tz s →
  (members s !! mid = None →
     return_book now mid bid s = (Fail NotFound_member, s))
  ∧ (is_Some (members s !! mid) →
     (∀ b, b ∈ ledger_values s →
        ¬ (Borrowing.member_id b = mid ∧ Borrowing.book_id b = bid
           ∧ Borrowing.status b = active)) →
     return_book now mid bid s = (Fail Invalid_no_active_borrowing, s))
  ∧ (∀ m b, members s !! mid = Some m → b ∈ ledger_values s →
     Borrowing.member_id b = mid → Borrowing.book_id b = bid →
     Borrowing.status b = active →
     ∃ l bk,
       heap s !! l = Some b
       ∧ (Borrowing.transaction_id b, l) ∈ borrowings s
       ∧ books s !! bid = Some bk
       ∧ return_book now mid bid s
         = (Ok (Borrowing.mk (Borrowing.transaction_id b) mid
                  (Borrowing.member_name b) bid (Borrowing.book_title b)
                  (Borrowing.borrowed_at b) (Borrowing.due_date b)
                  returned (Some now)),
            mkState
              (<[mid := Member.mk (Member.member_id m) (Member.name m)
                          (Member.age m) false (Member.history m)]> (members s))
              (<[bid := Book.mk (Book.book_id bk) (Book.title bk)
                          (Book.author bk) (Book.isbn bk) true]> (books s))
              (borrowings s)
              (<[l := Borrowing.mk (Borrowing.transaction_id b) mid
                        (Borrowing.member_name b) bid (Borrowing.book_title b)
                        (Borrowing.borrowed_at b) (Borrowing.due_date b)
                        returned (Some now)]> (heap s)))).
Proof.
  intros Hc%reachable_consistent.
  pose proof (c_ledger _ s Hc) as Hled.
  rewrite (ledger_values_of s Hled).
  split_and!.
  - intros Hm. unfold return_book. by rewrite Hm.
  - intros [m Hm] Hno. unfold return_book. rewrite Hm.
    destruct (List.find _ _) as [[l b]|] eqn:Hf; [|done].
    apply find_active_Some in Hf as [Hl Hp]; [|done].
    apply is_active_loan_true in Hp.
    destruct (Hno b); [by eapply list_elem_of_lookup_2 | done].
  - intros m b Hm Hb Hbm Hbb Hba.
    apply list_elem_of_lookup in Hb as [l Hl].
    pose proof (return_no_throw tz now mid bid s Hc) as Hnt.
    destruct (return_book now mid bid s) as [[r|e|] s'] eqn:E; [| |done].
    2: { exfalso. revert E. unfold return_book. rewrite Hm.
         destruct (List.find _ _) as [[l0 b0]|] eqn:Hf.
         - by destruct (books s !! bid).
         - pose proof (find_active_None s mid bid Hled Hf l b Hl) as Hp.
           rewrite (proj2 (is_active_loan_true mid bid b)) in Hp; done. }
    apply return_Ok in E as (m' & l0 & b0 & bk & Hm' & Hf & Hbk & Hr & ->).
    assert (m' = m) as -> by congruence.
    apply find_active_Some in Hf as [Hl0 Hp]; [|done].
    apply is_active_loan_true in Hp as (Hb0m & Hb0b & Hb0a).
    (* the member has one active borrowing, so the record found is [b] *)
    assert (l0 = l) as ->.
    { destruct (decide (l0 = l)) as [|Hne]; [done|exfalso].
      pose proof (c_member _ s Hc mid m Hm) as Hcnt.
      pose proof (count_insert (active_of_member mid) (heap s) l b
                    (Borrowing.mark_returned now b) Hl) as Hci.
      rewrite active_of_member_returned in Hci.
      rewrite (proj2 (active_of_member_true mid b)) in Hci by done.
      assert (<[l := Borrowing.mark_returned now b]> (heap s) !! l0 = Some b0)
        as Hl0' by (by rewrite list_lookup_insert_ne).
      pose proof (count_pos (active_of_member mid) _ l0 b0 Hl0'
                    (proj2 (active_of_member_true mid b0) (conj Hb0m Hb0a))).
      destruct (Member.has_borrowed m); lia. }
    assert (b0 = b) as -> by congruence.
    exists l, bk. split_and!; try done.
    + rewrite Hled. unfold ledger_of.
      apply list_elem_of_lookup. exists l. rewrite list_lookup_imap, Hl. simpl.
      by rewrite (c_tid _ s Hc l b Hl).
    + subst r. unfold Borrowing.mark_returned. by rewrite Hbm, Hbb.
Qed.

(** Returning the demo loan five milliseconds after it was made. *)
Lemma return_behaviour_witness :
  reachable Demo.utc (Demo.lent Demo.utc Demo.spring_noon)
  ∧ (return_book (Demo.spring_noon + 5) 1 101
       (Demo.lent Demo.utc Demo.spring_noon)).1
    = Ok (Borrowing.mk 1 1 "Ada" 101 "Dune" Demo.spring_noon
            (Demo.spring_noon + 14 * Date.msPerDay) returned
            (Some (Demo.spring_noon + 5))).
Proof.
  pose proof (reachable_run Demo.utc (Demo.stock ++ [Borrow Demo.spring_noon 1 101])
                init (reachable_init Demo.utc)) as Hr.
  split; [exact Hr|].
  destruct (return_behaviour Demo.utc (Demo.spring_noon + 5) 1 101 _ Hr)
    as (_ & _ & H3).
  assert (Demo.first_loan ∈ ledger_values (Demo.lent Demo.utc Demo.spring_noon))
    as Hin by (vm_compute; left).
  destruct (H3 (Member.mk 1 "Ada" 30 true [0%nat]) Demo.first_loan
              eq_refl Hin eq_refl eq_refl eq_refl)
    as (l & bk & _ & _ & _ & Hret).
  change (Demo.lent Demo.utc Demo.spring_noon)
    with (run Demo.utc (Demo.stock ++ [Borrow Demo.spring_noon 1 101]) init).
  rewrite Hret. reflexivity.
Defined.

(** C10: in every reachable state a Return that found its active borrowing
    also finds the book in the catalog, so it never assigns to a missing
    book: the book of an active borrowing is always in the catalog, because
    deleting a book is refused while an active borrowing refers to it. *)
Theorem return_finds_its_book tz s :
  reachable tz s →
  (∀ now mid bid, (return_book now mid bid s).1 ≠ Throws)
  ∧ (∀ mid bid l b,
       List.find (λ e, is_active_loan mid bid e.2) (ledger_entries s) = Some (l, b) →
       is_Some (books s !! bid))
  ∧ (∀ b, b ∈ ledger_values s → Borrowing.status b = active →
       is_Some (books s !! Borrowing.book_id b)
       ∧ delete_book (Borrowing.book_id b) s = (Fail Conflict_book_borrowed, s)).
Proof.
  intros Hc%reachable_consistent. split_and!.
  - intros now mid bid. by apply (return_no_throw tz).
  - intros mid bid l b Hf.
    apply find_active_Some in Hf as [Hl Hp]; [|by apply (c_ledger tz)].
    apply is_active_loan_true in Hp as (_ & <- & Ha).
    by apply (c_ref_book tz s Hc l b).
  - intros b Hb Ha.
    pose proof Hb as Hb'.
    rewrite (ledger_values_of s (c_ledger _ s Hc)) in Hb'.
    apply list_elem_of_lookup in Hb' as [l Hl].
    pose proof (c_ref_book tz s Hc l b Hl Ha) as [bk Hbk].
    split; [by eexists|].
    unfold delete_book. rewrite Hbk.
    assert (existsb (is_active_on_book (Borrowing.book_id b)) (ledger_values s)
            = true) as ->; [|done].
    apply existsb_exists. exists b. split; [by apply list_elem_of_In|].
    unfold is_active_on_book. by rewrite !bool_decide_eq_true_2.
Qed.

(** While book 101 is on loan, returning it does not throw and deleting it
    is refused. *)
Lemma return_finds_its_book_witness :
  reachable Demo.utc (Demo.lent Demo.utc Demo.spring_noon)
  ∧ (return_book (Demo.spring_noon + 1) 1 101
       (Demo.lent Demo.utc Demo.spring_noon)).1 ≠ Throws
  ∧ delete_book 101 (Demo.lent Demo.utc Demo.spring_noon)
    = (Fail Conflict_book_borrowed, Demo.lent Demo.utc Demo.spring_noon).
Proof.
  pose proof (reachable_run Demo.utc (Demo.stock ++ [Borrow Demo.spring_noon 1 101])
                init (reachable_init Demo.utc)) as Hr.
  split; [exact Hr|].
  destruct (return_finds_its_book Demo.utc _ Hr) as (Hnt & _ & _).
  split; [apply Hnt | reflexivity].
Defined.

(* ===================================================================== *)
(** ** Failed requests                                               *)
(* ===================================================================== *)

(** C7: a Borrow or Return that answers with a failure (not found,
    conflict or invalid) leaves the members, the books, the ledger and the
    records exactly as they were. *)
Theorem failed_request_changes_nothing tz now mid bid s :
  (∀ e s', borrow tz now mid bid s = (Fail e, s') →
     s' = s
     ∧ e ∈ [NotFound_member; NotFound_book;
            Conflict_already_borrowed; Conflict_unavailable])
  ∧ (∀ e s', return_book now mid bid s = (Fail e, s') →
     s' = s ∧ e ∈ [NotFound_member; Invalid_no_active_borrowing]).
Proof.
  split.
  - intros e s'. unfold borrow.
    destruct (members s !! mid) as [m|]; [|intros [= <- <-]; set_solver].
    destruct (books s !! bid) as [b|]; [|intros [= <- <-]; set_solver].
    destruct (Member.has_borrowed m); [intros [= <- <-]; set_solver|].
    destruct (Book.is_available b); [done|intros [= <- <-]; set_solver].
  - intros e s'. unfold return_book.
    destruct (members s !! mid) as [m|]; [|intros [= <- <-]; set_solver].
    destruct (List.find _ _) as [[l b0]|]; [|intros [= <- <-]; set_solver].
    by destruct (books s !! bid).
Qed.

(* ===================================================================== *)
(** ** Due dates and overdue loans                                        *)
(* ===================================================================== *)

Section Dates.
Variable tz : Z → bool → Z.

(** No request changes the dates of a record that exists. *)
Lemma exec_keeps_dates op s l b :
  consistent tz s → heap s !! l = Some b →
  ∃ b', heap (exec tz op s) !! l = Some b'
        ∧ Borrowing.due_date b' = Borrowing.due_date b
        ∧ Borrowing.borrowed_at b' = Borrowing.borrowed_at b.
Proof.
  intros Hc Hl. destruct op as [i n a|i n a|now m k|now m k|i|i t a n|i]; simpl.
  - exists b. split; [|done]. unfold create_member.
    destruct i, n, a; try done. by repeat case_match.
  - exists b. split; [|done]. unfold update_member.
    by repeat case_match.
  - destruct (borrow tz now m k s) as [[r|e|] s'] eqn:E; simpl.
    2,3: pose proof (borrow_not_Ok tz now m k s) as Hs; rewrite E in Hs;
         simpl in Hs; rewrite Hs by done; by exists b.
    apply borrow_Ok in E as (? & ? & _ & _ & _ & _ & _ & ->). simpl.
    exists b. split; [|done]. by apply lookup_app_l_Some.
  - pose proof (return_no_throw tz now m k s Hc) as Hnt.
    destruct (return_book now m k s) as [[r|e|] s'] eqn:E; simpl; [| |done].
    2: { apply return_Fail in E as ->. by exists b. }
    apply return_Ok in E as (? & l0 & b0 & ? & _ & Hf & _ & Hr & ->). simpl.
    apply find_active_Some in Hf as [Hl0 _]; [|by apply (c_ledger tz)].
    destruct (decide (l = l0)) as [->|Hne].
    + exists r. rewrite list_lookup_insert_eq by (by eapply lookup_lt_Some).
      split; [done|]. subst r. simpl. by replace b0 with b by congruence.
    + exists b. by rewrite list_lookup_insert_ne.
  - exists b. split; [|done]. unfold delete_member. by repeat case_match.
  - exists b. split; [|done]. unfold add_book.
    destruct i, t, a, n; try done. by repeat case_match.
  - exists b. split; [|done]. unfold delete_book. by repeat case_match.
Qed.
End Dates.

(** C5, as stated, is false: on a host whose clocks go forward between the
    borrow and the due date the difference is not 14 x 24 hours.  On United
    Kingdom time, a borrow at 2026-03-20T12:00:00.000Z (1774008000000) gets
    the due date 2026-04-03T11:00:00.000Z (1775214000000), noon on the
    local clock both times: 13 days and 23 hours later. *)
Lemma due_date_not_14_days_counterexample :
  reachable Date.london2026 (Demo.stocked Date.london2026)
  ∧ Demo.spring_noon = 1774008000000
  ∧ borrow Date.london2026 Demo.spring_noon 1 101 (Demo.stocked Date.london2026)
    = (Ok (Borrowing.mk 1 1 "Ada" 101 "Dune" 1774008000000 1775214000000
             active None),
       Demo.lent Date.london2026 Demo.spring_noon)
  ∧ 1775214000000 - 1774008000000 = 13 * (24 * 3600000) + 23 * 3600000
  ∧ 1775214000000 - 1774008000000 ≠ 14 * (24 * 3600000).
Proof.
  split; [apply reachable_run, reachable_init|].
  split; [reflexivity|]. split; [reflexivity|]. by vm_compute.
Qed.

(** C5, amended: the due date of every borrowing ever created is
    [UTC(LocalTime(borrowed_at) + 14 days)]: the local date and time of
    [borrowed_at] moved 14 calendar days ahead, converted back with the
    offset the host applies to that local date and time.  So [due_date -
    borrowed_at] is 14 x 24 hours plus the host's offset at [borrowed_at]
    minus the offset applied to the local due date and time, and it is
    exactly 14 x 24 hours if and only if these two offsets are equal.
    When the offset in force at the due instant is the one applied to the
    local due date and time, the due date shows the local time of day of
    [borrowed_at], 14 local days later.  The due date is computed once:
    no later request changes [due_date] or [borrowed_at]. *)
Theorem due_date_is_14_local_days tz s :
  reachable tz s →
  (∀ b, b ∈ ledger_values s →
     Borrowing.due_date b
     = Date.UTC tz (Date.LocalTime tz (Borrowing.borrowed_at b)
                    + 14 * Date.msPerDay)
     ∧ Borrowing.due_date b - Borrowing.borrowed_at b
       = 14 * (24 * 3600000) + tz (Borrowing.borrowed_at b) true
         - tz (Date.LocalTime tz (Borrowing.borrowed_at b) + 14 * Date.msPerDay)
              false
     ∧ (Borrowing.due_date b - Borrowing.borrowed_at b = 14 * (24 * 3600000)
        ↔ tz (Date.LocalTime tz (Borrowing.borrowed_at b) + 14 * Date.msPerDay)
             false
          = tz (Borrowing.borrowed_at b) true)
     ∧ (tz (Borrowing.due_date b) true
        = tz (Date.LocalTime tz (Borrowing.borrowed_at b) + 14 * Date.msPerDay)
             false →
        Date.LocalTime tz (Borrowing.due_date b)
        = Date.LocalTime tz (Borrowing.borrowed_at b) + 14 * Date.msPerDay
        ∧ Date.TimeWithinDay (Date.LocalTime tz (Borrowing.due_date b))
          = Date.TimeWithinDay (Date.LocalTime tz (Borrowing.borrowed_at b))))
  ∧ (∀ op l b, heap s !! l = Some b →
     ∃ b', heap (exec tz op s) !! l = Some b'
           ∧ Borrowing.due_date b' = Borrowing.due_date b
           ∧ Borrowing.borrowed_at b' = Borrowing.borrowed_at b).
Proof.
  intros Hc%reachable_consistent. split.
  - intros b Hb. rewrite (ledger_values_of s (c_ledger _ s Hc)) in Hb.
    apply list_elem_of_lookup in Hb as [l Hl].
    pose proof (c_due _ s Hc l b Hl) as Hd.
    assert (Borrowing.due_date b - Borrowing.borrowed_at b
            = 14 * (24 * 3600000) + tz (Borrowing.borrowed_at b) true
              - tz (Date.LocalTime tz (Borrowing.borrowed_at b)
                    + 14 * Date.msPerDay) false) as Hdiff.
    { rewrite Hd at 1. unfold Date.UTC, Date.LocalTime, Date.msPerDay. lia. }
    split_and!; [done|done|lia|].
    intros Hoff.
    assert (Date.LocalTime tz (Borrowing.due_date b)
            = Date.LocalTime tz (Borrowing.borrowed_at b) + 14 * Date.msPerDay)
      as Hlocal.
    { unfold Date.LocalTime at 1. rewrite Hoff. rewrite Hd at 1.
      unfold Date.UTC. lia. }
    split; [done|]. rewrite Hlocal. unfold Date.TimeWithinDay.
    by rewrite Z.mod_add by (by vm_compute).
  - intros op l b Hl. by apply exec_keeps_dates.
Qed.

(** On United Kingdom time, a loan made at 2026-03-15T01:30:00.000Z is
    due exactly 14 x 24 hours later, at 2026-03-29T01:30:00.000Z: the
    local due time 01:30 falls in the skipped hour and is given the offset
    of before the change, the offset of the borrow, although the offset in
    force at the due instant is one hour. *)
Lemma due_date_is_14_local_days_witness :
  reachable Date.london2026 (Demo.lent Date.london2026 Demo.gap_night)
  ∧ Demo.gap_night = 1773538200000
  ∧ heap (Demo.lent Date.london2026 Demo.gap_night)
    = [Borrowing.mk 1 1 "Ada" 101 "Dune" 1773538200000 1774747800000
         active None]
  ∧ 1774747800000 - 1773538200000 = 14 * (24 * 3600000)
  ∧ Date.london2026 1774747800000 true = 3600000
  ∧ Date.london2026 1773538200000 true = 0.
Proof.
  pose proof (reachable_run Date.london2026
                (Demo.stock ++ [Borrow Demo.gap_night 1 101])
                init (reachable_init Date.london2026)) as Hr.
  split; [exact Hr|]. split; [reflexivity|]. split; [reflexivity|].
  destruct (due_date_is_14_local_days Date.london2026 _ Hr) as [Hd _].
  assert (Borrowing.mk 1 1 "Ada" 101 "Dune" 1773538200000 1774747800000
            active None
          ∈ ledger_values (Demo.lent Date.london2026 Demo.gap_night))
    as Hin by (vm_compute; left).
  destruct (Hd _ Hin) as (_ & _ & Hiff & _).
  split; [exact (proj2 Hiff eq_refl)|]. split; reflexivity.
Defined.

Lemma filter_bool_decide {A} (P : A → Prop) `{∀ x, Decision (P x)} (l : list A) :
  List.filter (λ x, bool_decide (P x)) l = filter P l.
Proof.
  induction l as [|x l IH]; [done|]. simpl. rewrite filter_cons, IH.
  destruct (decide (P x)).
  - by rewrite bool_decide_eq_true_2.
  - by rewrite bool_decide_eq_false_2.
Qed.

Lemma overdue_test b now :
  bool_decide (Borrowing.status b = active)
  && bool_decide (Borrowing.due_date b < now)
  = bool_decide (Borrowing.status b = active ∧ Borrowing.due_date b < now).
Proof.
  destruct (decide (Borrowing.status b = active)) as [Ha|Ha],
           (decide (Borrowing.due_date b < now)) as [Hd|Hd].
  - by rewrite !bool_decide_eq_true_2.
  - rewrite (bool_decide_eq_false_2 (Borrowing.due_date b < now)) by done.
    rewrite andb_false_r. symmetry. apply bool_decide_eq_false_2. tauto.
  - rewrite (bool_decide_eq_false_2 (Borrowing.status b = active)) by done.
    symmetry. apply bool_decide_eq_false_2. tauto.
  - rewrite (bool_decide_eq_false_2 (Borrowing.status b = active)) by done.
    symmetry. apply bool_decide_eq_false_2. tauto.
Qed.

Lemma overdue_filter now s :
  overdue now s
  = (λ b, mkOverdueView (borrowed_view b)
            ((now - Borrowing.due_date b) / Date.msPerDay)) <$>
      filter (λ b, Borrowing.status b = active ∧ Borrowing.due_date b < now)
        (ledger_values s).
Proof.
  unfold overdue. rewrite <- filter_bool_decide. f_equal.
  induction (ledger_values s) as [|b l IH]; [done|].
  simpl. rewrite overdue_test, IH. reflexivity.
Qed.

(** C6, as stated, is false where it says that a borrowing queried 15 days
    after the borrow shows [days_overdue = 1]: on a host whose clocks go
    back between the borrow and the due date the due date is 14 days and
    one hour after the borrow.  On United Kingdom time, a borrow at
    2026-10-20T12:00:00.000Z (1792497600000) is due at
    2026-11-03T13:00:00.000Z (1793710800000); asked exactly 15 x 24 hours
    after the borrow, the overdue list shows it with [days_overdue = 0]. *)
Lemma overdue_after_15_days_counterexample :
  reachable Date.london2026 (Demo.lent Date.london2026 Demo.autumn_noon)
  ∧ Demo.autumn_noon = 1792497600000
  ∧ heap (Demo.lent Date.london2026 Demo.autumn_noon)
    = [Borrowing.mk 1 1 "Ada" 101 "Dune" 1792497600000 1793710800000 active None]
  ∧ overdue (Demo.autumn_noon + 15 * (24 * 3600000))
      (Demo.lent Date.london2026 Demo.autumn_noon)
    = [mkOverdueView
         (mkBorrowedView 1 1 "Ada" 101 "Dune" 1792497600000 1793710800000) 0]
  ∧ days_overdue <$>
      overdue (Demo.autumn_noon + 15 * (24 * 3600000))
        (Demo.lent Date.london2026 Demo.autumn_noon)
    ≠ [1].
Proof.
  split; [apply reachable_run, reachable_init|].
  split; [reflexivity|]. split; [reflexivity|]. split; [reflexivity|].
  by vm_compute.
Qed.

(** C6, amended: for every state and every time [now], the overdue list
    shows exactly the ledger records that are active with a due date
    strictly before [now], in ledger order, each with [days_overdue] the
    whole number of days in [now - due_date]; a record due exactly at [now]
    is not shown; a record shown less than one day after its due date has
    [days_overdue = 0]; and a record asked about exactly 15 x 24 hours
    after its [borrowed_at] has [days_overdue = 1] when its due date is
    exactly 14 x 24 hours after [borrowed_at]. *)
Theorem overdue_lists_late_active_loans now s :
  (∀ v, v ∈ overdue now s
     ↔ ∃ b, b ∈ ledger_values s ∧ Borrowing.status b = active
            ∧ Borrowing.due_date b < now
            ∧ v = mkOverdueView (borrowed_view b)
                    ((now - Borrowing.due_date b) / Date.msPerDay))
  ∧ ov_borrowing <$> overdue now s
    = borrowed_view <$>
        filter (λ b, Borrowing.status b = active ∧ Borrowing.due_date b < now)
          (ledger_values s)
  ∧ (∀ v, v ∈ overdue now s →
       bv_due_date (ov_borrowing v) < now
       ∧ 0 ≤ days_overdue v
       ∧ Date.msPerDay * days_overdue v ≤ now - bv_due_date (ov_borrowing v)
         < Date.msPerDay * (days_overdue v + 1))
  ∧ (∀ b, b ∈ ledger_values s → Borrowing.due_date b = now →
       ∀ v, v ∈ overdue now s → ov_borrowing v ≠ borrowed_view b)
  ∧ (∀ v, v ∈ overdue now s →
       now - bv_due_date (ov_borrowing v) < Date.msPerDay → days_overdue v = 0)
  ∧ (∀ b, b ∈ ledger_values s → Borrowing.status b = active →
       Borrowing.due_date b = Borrowing.borrowed_at b + 14 * (24 * 3600000) →
       now = Borrowing.borrowed_at b + 15 * (24 * 3600000) →
       mkOverdueView (borrowed_view b) 1 ∈ overdue now s).
Proof.
  assert (∀ v, v ∈ overdue now s
     ↔ ∃ b, b ∈ ledger_values s ∧ Borrowing.status b = active
            ∧ Borrowing.due_date b < now
            ∧ v = mkOverdueView (borrowed_view b)
                    ((now - Borrowing.due_date b) / Date.msPerDay)) as Hin.
  { intros v. rewrite overdue_filter, list_elem_of_fmap. split.
    - intros (b & -> & (Hp & Hb)%list_elem_of_filter). exists b. tauto.
    - intros (b & Hb & Ha & Hd & ->). exists b. split; [done|].
      apply list_elem_of_filter. tauto. }
  assert (0 < Date.msPerDay) as Hpos by (by vm_compute).
  assert (∀ v, v ∈ overdue now s →
       bv_due_date (ov_borrowing v) < now
       ∧ 0 ≤ days_overdue v
       ∧ Date.msPerDay * days_overdue v ≤ now - bv_due_date (ov_borrowing v)
         < Date.msPerDay * (days_overdue v + 1)) as Hfloor.
  { intros v (b & _ & _ & Hd & ->)%Hin. simpl.
    pose proof (Z.mul_div_le (now - Borrowing.due_date b) _ Hpos).
    pose proof (Z.mul_succ_div_gt (now - Borrowing.due_date b) _ Hpos).
    split; [done|]. split; [apply Z.div_pos; lia | lia]. }
  split_and!; try done.
  - rewrite overdue_filter, <- list_fmap_compose. done.
  - intros b Hb Hnow v Hv Heq. apply Hfloor in Hv as [Hlt _].
    rewrite Heq in Hlt. simpl in Hlt. lia.
  - intros v Hv Hlate. apply Hfloor in Hv as (_ & H0 & Hle & _). nia.
  - intros b Hb Ha Hdue ->. apply Hin. exists b. split_and!; try done; [lia|].
    f_equal. rewrite Hdue.
    replace (Borrowing.borrowed_at b + 15 * (24 * 3600000)
             - (Borrowing.borrowed_at b + 14 * (24 * 3600000)))
      with (1 * Date.msPerDay) by (unfold Date.msPerDay; lia).
    by rewrite Z.div_mul by lia.
Qed.

(* ===================================================================== *)
(** ** History entries are the ledger's records                           *)
(* ===================================================================== *)

Lemma omap_ext_elem {A B} (f g : A → option B) (l : list A) :
  (∀ x, x ∈ l → f x = g x) → omap f l = omap g l.
Proof.
  induction l as [|x l IH]; intros H; [done|]. csimpl.
  rewrite (H x) by left. rewrite IH; [done|].
  intros y Hy. apply H. by right.
Qed.

(** In a state where the member has nothing on loan, the record a Return
    finds right after a Borrow is the record that Borrow created. *)
Lemma return_after_borrow_finds_it tz s mid bid m r l b0 :
  consistent tz s → members s !! mid = Some m →
  Member.has_borrowed m = false →
  (heap s ++ [r]) !! l = Some b0 → is_active_loan mid bid b0 = true →
  l = length (heap s) ∧ b0 = r.
Proof.
  intros Hc Hm Hmf Hl Hp.
  apply lookup_app_Some in Hl as [Hl|[Hge Hl]].
  - exfalso. apply is_active_loan_true in Hp as (Hbm & _ & Hba).
    pose proof (c_member _ s Hc mid m Hm) as Hcnt. rewrite Hmf in Hcnt.
    pose proof (count_pos (active_of_member mid) (heap s) l b0 Hl
                  (proj2 (active_of_member_true mid b0) (conj Hbm Hba))).
    lia.
  - apply list_lookup_singleton_Some in Hl as [Hl <-]. split; [lia|done].
Qed.

(** Borrow shows the new record as the last entry of the member's history,
    and a Return right after it rewrites that entry. *)
Lemma borrow_then_return_history tz now1 now2 mid bid s r s1 r' s2 :
  consistent tz s →
  borrow tz now1 mid bid s = (Ok r, s1) →
  return_book now2 mid bid s1 = (Ok r', s2) →
  ∃ name before,
    history mid s = Ok (mid, name, before)
    ∧ history mid s1
      = Ok (mid, name,
            before ++ [mkHistoryEntry (Borrowing.transaction_id r) bid
                         (Borrowing.book_title r) now1 None active])
    ∧ history mid s2
      = Ok (mid, name,
            before ++ [mkHistoryEntry (Borrowing.transaction_id r) bid
                         (Borrowing.book_title r) now1 (Some now2) returned]).
Proof.
  intros Hc Hborrow Hreturn.
  assert (consistent tz s1) as Hc1.
  { pose proof (consistent_borrow tz now1 mid bid s Hc) as H.
    by rewrite Hborrow in H. }
  apply borrow_Ok in Hborrow as (m & b & Hm & Hb & Hmf & Hbf & Hr & Hs1).
  apply return_Ok in Hreturn as (m' & l & b0 & bk & Hm' & Hf & Hbk & Hr' & Hs2).
  apply find_active_Some in Hf as [Hl Hp]; [|by apply (c_ledger tz)].
  rewrite Hs1 in Hl, Hm'. simpl in Hl, Hm'.
  rewrite lookup_insert_eq in Hm'. injection Hm' as <-.
  destruct (return_after_borrow_finds_it tz s mid bid m r l b0 Hc Hm Hmf Hl Hp)
    as [-> ->].
  assert (heap s2 = <[length (heap s) := r']> (heap s ++ [r])) as Hheap2
    by (by rewrite Hs2, Hs1).
  assert (heap s2 !! length (heap s) = Some r') as Hl2.
  { rewrite Hheap2. apply list_lookup_insert_eq.
    rewrite length_app. simpl. lia. }
  assert (∀ l', l' ∈ Member.history m → ∃ b', heap s !! l' = Some b') as Hold.
  { intros l' Hl'. destruct (c_history _ s Hc mid m l' Hm Hl') as (b' & Hb' & _).
    by exists b'. }
  exists (Member.name m),
    (omap (λ l, history_entry <$> heap s !! l) (Member.history m)).
  split_and!.
  - unfold history. by rewrite Hm.
  - unfold history. rewrite Hs1 at 1. simpl. rewrite lookup_insert_eq. simpl.
    do 3 f_equal. rewrite omap_app. f_equal.
    + apply omap_ext_elem. intros l' [b' Hb']%Hold.
      rewrite Hs1. simpl. by rewrite (lookup_app_l_Some _ _ _ _ Hb'), Hb'.
    + csimpl. rewrite Hs1. simpl. rewrite list_lookup_middle by done.
      simpl. by rewrite Hr.
  - unfold history. rewrite Hs2 at 1. simpl. rewrite lookup_insert_eq. simpl.
    do 3 f_equal. rewrite omap_app. f_equal.
    + apply omap_ext_elem. intros l' [b' Hb']%Hold.
      rewrite Hheap2, list_lookup_insert_ne
        by (apply lookup_lt_Some in Hb'; lia).
      by rewrite (lookup_app_l_Some _ _ _ _ Hb'), Hb'.
    + csimpl. rewrite Hl2. simpl. by rewrite Hr', Hr.
Qed.

(** Whenever a Return succeeds, the entry it rewrites was already in the
    member's history, shown as active and not yet returned. *)
Lemma return_rewrites_history_entry tz now mid bid s r' s' :
  consistent tz s →
  return_book now mid bid s = (Ok r', s') →
  ∃ name pre post b,
    history mid s = Ok (mid, name, pre ++ history_entry b :: post)
    ∧ Borrowing.status b = active ∧ Borrowing.returned_at b = None
    ∧ r' = Borrowing.mark_returned now b
    ∧ history mid s'
      = Ok (mid, name,
            pre ++ mkHistoryEntry (Borrowing.transaction_id b) bid
                     (Borrowing.book_title b) (Borrowing.borrowed_at b)
                     (Some now) returned :: post).
Proof.
  intros Hc (m & l & b0 & bk & Hm & Hf & Hbk & Hr & Hs')%return_Ok.
  apply find_active_Some in Hf as [Hl Hp]; [|by apply (c_ledger tz)].
  apply is_active_loan_true in Hp as (Hbm & Hbb & Hba).
  destruct (c_active_history _ s Hc l b0 Hl Hba) as (m0 & Hm0 & Hin).
  rewrite Hbm, Hm in Hm0. injection Hm0 as <-.
  apply list_elem_of_split in Hin as (h1 & h2 & Hh).
  pose proof (c_history_nodup _ s Hc mid m Hm) as Hnd.
  rewrite Hh, list.NoDup_app, list.NoDup_cons in Hnd.
  destruct Hnd as (_ & Hh1 & Hh2 & _).
  assert (l ∉ h1) as Hl1.
  { intros Hin. apply (Hh1 l Hin). left. }
  exists (Member.name m),
    (omap (λ l, history_entry <$> heap s !! l) h1),
    (omap (λ l, history_entry <$> heap s !! l) h2), b0.
  split_and!; try done.
  - unfold history. rewrite Hm, Hh, omap_app. csimpl. by rewrite Hl.
  - by eapply c_active_open.
  - unfold history. rewrite Hs' at 1. simpl. rewrite lookup_insert_eq. simpl.
    rewrite Hh, omap_app. csimpl. rewrite Hs'. simpl.
    rewrite list_lookup_insert_eq by (by eapply lookup_lt_Some). simpl.
    do 3 f_equal.
    + apply omap_ext_elem. intros x Hx.
      rewrite list_lookup_insert_ne; [done|]. by intros ->.
    + f_equal.
      * subst r'. unfold history_entry. simpl. by rewrite Hbb.
      * apply omap_ext_elem. intros x Hx.
        rewrite list_lookup_insert_ne; [done|]. by intros ->.
Qed.

(** C9: the entry Borrow appends to a member's history is the ledger's
    record itself (the same object), not a copy.  In every reachable state
    each history entry of a member is a record that the ledger files under
    its transaction id; after a successful Borrow followed by a successful
    Return of the same member and book, the member's history shows the
    entry of that borrowing, appended while active and without
    [returned_at], as returned with [returned_at] set; and the same holds
    for whatever record a successful Return finds. *)
Theorem history_shows_return tz s :
  reachable tz s →
  (∀ k m l, members s !! k = Some m → l ∈ Member.history m →
     ∃ b, heap s !! l = Some b
          ∧ (Borrowing.transaction_id b, l) ∈ borrowings s
          ∧ Borrowing.member_id b = k)
  ∧ (∀ now1 now2 mid bid r s1 r' s2,
       borrow tz now1 mid bid s = (Ok r, s1) →
       return_book now2 mid bid s1 = (Ok r', s2) →
       ∃ name before,
         history mid s = Ok (mid, name, before)
         ∧ history mid s1
           = Ok (mid, name,
                 before ++ [mkHistoryEntry (Borrowing.transaction_id r) bid
                              (Borrowing.book_title r) now1 None active])
         ∧ history mid s2
           = Ok (mid, name,
                 before ++ [mkHistoryEntry (Borrowing.transaction_id r) bid
                              (Borrowing.book_title r) now1 (Some now2)
                              returned]))
  ∧ (∀ now mid bid r' s',
       return_book now mid bid s = (Ok r', s') →
       ∃ name pre post b,
         history mid s = Ok (mid, name, pre ++ history_entry b :: post)
         ∧ Borrowing.status b = active ∧ Borrowing.returned_at b = None
         ∧ r' = Borrowing.mark_returned now b
         ∧ history mid s'
           = Ok (mid, name,
                 pre ++ mkHistoryEntry (Borrowing.transaction_id b) bid
                          (Borrowing.book_title b) (Borrowing.borrowed_at b)
                          (Some now) returned :: post)).
Proof.
  intros Hc%reachable_consistent. split_and!.
  - intros k m l Hm Hl.
    destruct (c_history _ s Hc k m l Hm Hl) as (b & Hb & Hk).
    exists b. split_and!; try done.
    rewrite (c_ledger _ s Hc). unfold ledger_of.
    apply list_elem_of_lookup. exists l. rewrite list_lookup_imap, Hb. simpl.
    by rewrite (c_tid _ s Hc l b Hb).
  - intros now1 now2 mid bid r s1 r' s2.
    by apply borrow_then_return_history.
  - intros now mid bid r' s'. by apply (return_rewrites_history_entry tz).
Qed.

(** The demo loan in member 1's history, before and after its return. *)
Lemma history_shows_return_witness :
  reachable Demo.utc (Demo.stocked Demo.utc)
  ∧ history 1 (Demo.lent Demo.utc Demo.spring_noon)
    = Ok (1, "Ada", [mkHistoryEntry 1 101 "Dune" Demo.spring_noon None active])
  ∧ history 1
      (return_book (Demo.spring_noon + 5) 1 101
         (Demo.lent Demo.utc Demo.spring_noon)).2
    = Ok (1, "Ada",
          [mkHistoryEntry 1 101 "Dune" Demo.spring_noon
             (Some (Demo.spring_noon + 5)) returned]).
Proof.
  pose proof (reachable_run Demo.utc Demo.stock init (reachable_init Demo.utc))
    as Hr.
  split; [exact Hr|].
  destruct (history_shows_return Demo.utc _ Hr) as (_ & Hbr & _).
  destruct (Hbr Demo.spring_noon (Demo.spring_noon + 5) 1 101 Demo.first_loan
              (Demo.lent Demo.utc Demo.spring_noon)
              (Borrowing.mark_returned (Demo.spring_noon + 5) Demo.first_loan)
              (return_book (Demo.spring_noon + 5) 1 101
                 (Demo.lent Demo.utc Demo.spring_noon)).2
              eq_refl eq_refl)
    as (name & before & Hbefore & H1 & H2).
  assert (history 1 (run Demo.utc Demo.stock init) = Ok (1, "Ada", []))
    as Hempty by reflexivity.
  rewrite Hempty in Hbefore. injection Hbefore as <- <-.
  split; [exact H1 | exact H2].
Defined.

(* ===================================================================== *)
(** ** Members and books: registering, reading, updating                  *)
(* ===================================================================== *)

(** X1: registering a member succeeds exactly when the id is non-zero, the
    name is non-empty, the age is given and at least 12, and the id is not
    in use; an id in use is reported even when the age is too low.  The new
    member can be read back, has borrowed nothing and has an empty history;
    the other members, the books and the ledger are untouched. *)
Theorem create_member_registers i n a s :
  ((∃ v, (create_member i n a s).1 = Ok v)
   ↔ ∃ id nm ag, i = Some id ∧ n = Some nm ∧ a = Some ag
        ∧ id ≠ 0 ∧ nm ≠ EmptyString ∧ members s !! id = None ∧ 12 ≤ ag)
  ∧ (∀ id nm ag, i = Some id → n = Some nm → a = Some ag →
       id ≠ 0 → nm ≠ EmptyString → is_Some (members s !! id) →
       create_member i n a s = (Fail AlreadyExists_member, s))
  ∧ (∀ v, (create_member i n a s).1 = Ok v →
       i = Some (mv_member_id v) ∧ n = Some (mv_name v) ∧ a = Some (mv_age v)
       ∧ mv_has_borrowed v = false
       ∧ get_member (mv_member_id v) (create_member i n a s).2 = Ok v
       ∧ history (mv_member_id v) (create_member i n a s).2
         = Ok (mv_member_id v, mv_name v, [])
       ∧ (∀ k, k ≠ mv_member_id v →
            members (create_member i n a s).2 !! k = members s !! k)
       ∧ books (create_member i n a s).2 = books s
       ∧ borrowings (create_member i n a s).2 = borrowings s
       ∧ heap (create_member i n a s).2 = heap s).
Proof.
  unfold create_member. split_and!.
  - split.
    + intros [v Hv]. destruct i as [id|], n as [nm|], a as [ag|]; try done.
      simpl in Hv.
      destruct (decide (id ≠ 0)) as [Hid|Hid];
        [rewrite (bool_decide_eq_true_2 _ Hid) in Hv
        |rewrite (bool_decide_eq_false_2 _ Hid) in Hv; done].
      destruct (decide (nm ≠ EmptyString)) as [Hnm|Hnm];
        [rewrite (bool_decide_eq_true_2 _ Hnm) in Hv
        |rewrite (bool_decide_eq_false_2 _ Hnm) in Hv; done].
      simpl in Hv. case_bool_decide as Hex; [done|].
      case_bool_decide as Hag; [done|].
      exists id, nm, ag. split_and!; try done; [|lia].
      by apply eq_None_not_Some.
    + intros (id & nm & ag & -> & -> & -> & Hid & Hnm & Hno & Hag). simpl.
      rewrite (bool_decide_eq_true_2 _ Hid), (bool_decide_eq_true_2 _ Hnm).
      simpl. rewrite bool_decide_eq_false_2 by (rewrite Hno; by intros [? ?]).
      rewrite bool_decide_eq_false_2 by lia. eauto.
  - intros id nm ag -> -> -> Hid Hnm Hex. simpl.
    rewrite (bool_decide_eq_true_2 _ Hid), (bool_decide_eq_true_2 _ Hnm).
    simpl. by rewrite (bool_decide_eq_true_2 _ Hex).
  - intros v Hv. destruct i as [id|], n as [nm|], a as [ag|]; try done.
    destruct (negb (truthyZ (Some id)) || negb (truthyS (Some nm))); [done|].
    case_bool_decide as Hex; [done|]. case_bool_decide as Hag; [done|].
    simpl in *. injection Hv as <-. simpl.
    unfold get_member, history. simpl. rewrite lookup_insert_eq. simpl.
    split_and!; try done.
    intros k Hk. by rewrite lookup_insert_ne.
Qed.

(** X2: adding a book succeeds exactly when the id is non-zero, title,
    author and ISBN are non-empty and the id is not in use.  The new book
    can be read back and is available; the other books, the members and the
    ledger are untouched. *)
Theorem add_book_registers i t a n s :
  ((∃ b, (add_book i t a n s).1 = Ok b)
   ↔ ∃ id ti au isb, i = Some id ∧ t = Some ti ∧ a = Some au ∧ n = Some isb
        ∧ id ≠ 0 ∧ ti ≠ EmptyString ∧ au ≠ EmptyString ∧ isb ≠ EmptyString
        ∧ books s !! id = None)
  ∧ (∀ b, (add_book i t a n s).1 = Ok b →
       i = Some (Book.book_id b) ∧ t = Some (Book.title b)
       ∧ a = Some (Book.author b) ∧ n = Some (Book.isbn b)
       ∧ Book.is_available b = true
       ∧ get_book (Book.book_id b) (add_book i t a n s).2 = Ok b
       ∧ (∀ k, k ≠ Book.book_id b →
            books (add_book i t a n s).2 !! k = books s !! k)
       ∧ members (add_book i t a n s).2 = members s
       ∧ borrowings (add_book i t a n s).2 = borrowings s
       ∧ heap (add_book i t a n s).2 = heap s).
Proof.
  unfold add_book. split.
  - split.
    + intros [b Hb].
      destruct i as [id|], t as [ti|], a as [au|], n as [isb|]; try done.
      simpl in Hb.
      destruct (decide (id ≠ 0)) as [Hid|Hid];
        [rewrite (bool_decide_eq_true_2 _ Hid) in Hb
        |rewrite (bool_decide_eq_false_2 _ Hid) in Hb; done].
      destruct (decide (ti ≠ EmptyString)) as [Hti|Hti];
        [rewrite (bool_decide_eq_true_2 _ Hti) in Hb
        |rewrite (bool_decide_eq_false_2 _ Hti) in Hb; done].
      destruct (decide (au ≠ EmptyString)) as [Hau|Hau];
        [rewrite (bool_decide_eq_true_2 _ Hau) in Hb
        |rewrite (bool_decide_eq_false_2 _ Hau) in Hb; done].
      destruct (decide (isb ≠ EmptyString)) as [His|His];
        [rewrite (bool_decide_eq_true_2 _ His) in Hb
        |rewrite (bool_decide_eq_false_2 _ His) in Hb; done].
      simpl in Hb. case_bool_decide as Hex; [done|].
      exists id, ti, au, isb. split_and!; try done.
      by apply eq_None_not_Some.
    + intros (id & ti & au & isb & -> & -> & -> & -> & Hid & Hti & Hau & His & Hno).
      simpl.
      rewrite (bool_decide_eq_true_2 _ Hid), (bool_decide_eq_true_2 _ Hti),
        (bool_decide_eq_true_2 _ Hau), (bool_decide_eq_true_2 _ His).
      simpl. rewrite bool_decide_eq_false_2 by (rewrite Hno; by intros [? ?]).
      eauto.
  - intros b Hb.
    destruct i as [id|], t as [ti|], a as [au|], n as [isb|]; try done.
    destruct (negb (truthyZ (Some id)) || negb (truthyS (Some ti))
              || negb (truthyS (Some au)) || negb (truthyS (Some isb)));
      [done|].
    case_bool_decide as Hex; [done|].
    simpl in *. injection Hb as <-. simpl.
    unfold get_book. simpl. rewrite lookup_insert_eq.
    split_and!; try done.
    intros k Hk. by rewrite lookup_insert_ne.
Qed.

(** X3: the five handlers that register, update and delete members and
    books never throw, and when one of them answers with a failure the
    state is exactly what it was; in particular an update with a good name
    and an age below 12 changes neither. *)
Theorem failed_crud_changes_nothing s :
  (∀ i n a, (create_member i n a s).1 ≠ Throws
     ∧ ∀ e s', create_member i n a s = (Fail e, s') → s' = s)
  ∧ (∀ id n a, (update_member id n a s).1 ≠ Throws
     ∧ ∀ e s', update_member id n a s = (Fail e, s') → s' = s)
  ∧ (∀ id, (delete_member id s).1 ≠ Throws
     ∧ ∀ e s', delete_member id s = (Fail e, s') → s' = s)
  ∧ (∀ i t a n, (add_book i t a n s).1 ≠ Throws
     ∧ ∀ e s', add_book i t a n s = (Fail e, s') → s' = s)
  ∧ (∀ id, (delete_book id s).1 ≠ Throws
     ∧ ∀ e s', delete_book id s = (Fail e, s') → s' = s)
  ∧ (∀ id nm ag, ag < 12 →
       update_member id (Some nm) (Some ag) s
       = (Fail (if bool_decide (is_Some (members s !! id))
                then InvalidAge else NotFound_member), s)).
Proof.
  split_and!.
  - intros i n a. unfold create_member.
    destruct i, n, a; (split; [|intros e s']); try done;
      repeat case_match; try done; by intros [= <- <-].
  - intros id n a. unfold update_member.
    (split; [|intros e s']); repeat case_match; try done; by intros [= <- <-].
  - intros id. unfold delete_member.
    (split; [|intros e s']); repeat case_match; try done; by intros [= <- <-].
  - intros i t a n. unfold add_book.
    destruct i, t, a, n; (split; [|intros e s']); try done;
      repeat case_match; try done; by intros [= <- <-].
  - intros id. unfold delete_book.
    (split; [|intros e s']); repeat case_match; try done; by intros [= <- <-].
  - intros id nm ag Hag. unfold update_member.
    destruct (members s !! id) as [m|] eqn:Hm.
    + rewrite (bool_decide_eq_true_2 (ag < 12) Hag).
      by rewrite (bool_decide_eq_true_2 (is_Some (Some m))) by eauto.
    + rewrite (bool_decide_eq_false_2 (is_Some None)); [done|]. by intros [? ?].
Qed.

(** X4: updating an existing member with an admissible age (absent or at
    least 12) succeeds; the name changes only to a non-empty name that was
    given and the age only to an age that was given; id, [has_borrowed] and
    history stay; the member read back is the updated one, while the
    borrowed and overdue lists, which carry the name copied at borrow time,
    are what they were.  An update that gives nothing leaves the state as
    it is. *)
Theorem update_member_effects id n a s m :
  members s !! id = Some m →
  (∀ ag, a = Some ag → 12 ≤ ag) →
  ∃ m',
    update_member id n a s
    = (Ok (mkMemberView (Member.member_id m') (Member.name m')
             (Member.age m') (Member.has_borrowed m')),
       mkState (<[id := m']> (members s)) (books s) (borrowings s) (heap s))
    ∧ Member.name m'
      = match n with
        | Some nm => if decide (nm = EmptyString) then Member.name m else nm
        | None => Member.name m
        end
    ∧ Member.age m' = match a with Some ag => ag | None => Member.age m end
    ∧ Member.member_id m' = Member.member_id m
    ∧ Member.has_borrowed m' = Member.has_borrowed m
    ∧ Member.history m' = Member.history m
    ∧ get_member id (update_member id n a s).2
      = Ok (mkMemberView (Member.member_id m') (Member.name m')
              (Member.age m') (Member.has_borrowed m'))
    ∧ list_borrowed (update_member id n a s).2 = list_borrowed s
    ∧ (∀ now, overdue now (update_member id n a s).2 = overdue now s)
    ∧ (n = None → a = None → (update_member id n a s).2 = s).
Proof.
  intros Hm Hage. unfold update_member. rewrite Hm.
  assert (match a with Some a0 => bool_decide (a0 < 12) | None => false end
          = false) as ->.
  { destruct a as [ag|]; [|done]. apply bool_decide_eq_false_2.
    specialize (Hage ag eq_refl). lia. }
  cbv zeta.
  match goal with |- ∃ _, (_, mkState (<[_ := ?m2]> _) _ _ _) = _ ∧ _ =>
    set (member2 := m2) end.
  exists member2. split; [done|].
  assert (Member.name member2
          = match n with
            | Some nm => if decide (nm = EmptyString) then Member.name m else nm
            | None => Member.name m
            end) as Hname.
  { subst member2. destruct n as [nm|], a as [ag|]; simpl;
      repeat case_bool_decide; repeat case_decide; simpl; congruence. }
  assert (Member.age member2
          = match a with Some ag => ag | None => Member.age m end) as Hag2.
  { subst member2. destruct n as [nm|], a as [ag|]; simpl;
      try (specialize (Hage ag eq_refl));
      repeat case_bool_decide; simpl; try done; lia. }
  assert (Member.member_id member2 = Member.member_id m
          ∧ Member.has_borrowed member2 = Member.has_borrowed m
          ∧ Member.history member2 = Member.history m) as (Hid & Hhb & Hhi).
  { subst member2. destruct n, a; simpl; repeat case_match; done. }
  split_and!; try done.
  - unfold get_member. simpl. by rewrite lookup_insert_eq.
  - intros -> ->. subst member2. simpl. destruct s as [ms bs ls hs]. simpl in *.
    f_equal. by apply insert_id.
Qed.

(** Renaming the demo borrower to Grace while the loan is out. *)
Lemma update_member_effects_witness :
  members (Demo.lent Demo.utc Demo.spring_noon) !! 1
  = Some (Member.mk 1 "Ada" 30 true [0%nat])
  ∧ get_member 1
      (update_member 1 (Some "Grace") None
         (Demo.lent Demo.utc Demo.spring_noon)).2
    = Ok (mkMemberView 1 "Grace" 30 true)
  ∧ bv_member_name <$>
      list_borrowed (update_member 1 (Some "Grace") None
                       (Demo.lent Demo.utc Demo.spring_noon)).2
    = ["Ada"].
Proof.
  assert (members (Demo.lent Demo.utc Demo.spring_noon) !! 1
          = Some (Member.mk 1 "Ada" 30 true [0%nat])) as Hm by reflexivity.
  split; [exact Hm|].
  destruct (update_member_effects 1 (Some "Grace") None _ _ Hm)
    as (m' & _ & Hn & Ha & Hi & Hb & _ & Hg & Hl & _); [done|].
  split.
  - rewrite Hg, Hn, Ha, Hi, Hb. reflexivity.
  - rewrite Hl. reflexivity.
Defined.

(* ===================================================================== *)
(** ** Deleting members and books                                         *)
(* ===================================================================== *)

Lemma existsb_count {A} (p : A → bool) (l : list A) :
  existsb p l = true ↔ (0 < count p l)%nat.
Proof.
  induction l as [|x l IH]; simpl.
  - rewrite count_nil. split; [done|lia].
  - rewrite count_cons, orb_true_iff, IH. destruct (p x); simpl.
    + split; [lia | by left].
    + split; [intros [?|?]; [done|lia] | intros; right; lia].
Qed.

Lemma map_set_next tz s l :
  consistent tz s →
  map_set (map_size (borrowings s) + 1) l (borrowings s)
  = borrowings s ++ [(map_size (borrowings s) + 1, l)].
Proof.
  intros Hc. apply map_set_fresh. unfold map_size.
  rewrite (c_ledger _ s Hc), ledger_of_length. apply ledger_of_fresh.
Qed.

Lemma delete_book_refused tz id s b :
  consistent tz s → books s !! id = Some b → Book.is_available b = false →
  delete_book id s = (Fail Conflict_book_borrowed, s).
Proof.
  intros Hc Hb Hav. unfold delete_book.
  rewrite Hb, (ledger_values_of s (c_ledger _ s Hc)).
  assert (existsb (is_active_on_book id) (heap s) = true) as ->; [|done].
  apply existsb_count.
  change (is_active_on_book id) with (active_of_book id).
  rewrite (c_book _ s Hc id b Hb), Hav. lia.
Qed.

Lemma count_active_member_elem s k :
  count (active_of_member k) (heap s) = 0%nat
  ↔ ∀ b, b ∈ heap s → Borrowing.member_id b = k → Borrowing.status b = returned.
Proof.
  rewrite count_zero. split.
  - intros H b Hb Hk. specialize (H b Hb).
    destruct (Borrowing.status b) eqn:E; [|done].
    by rewrite (proj2 (active_of_member_true k b)) in H.
  - intros H b Hb. apply not_true_is_false.
    intros [Hk Ha]%active_of_member_true. specialize (H b Hb Hk). congruence.
Qed.

(** X5: in every reachable state, deleting a member answers "not found"
    for an unknown id, is refused when the ledger holds an active borrowing
    of that member, and otherwise removes the member and nothing else: the
    member can no longer be read, and the ledger keeps all its records. *)
Theorem delete_member_behaviour tz id s :
  reachable tz s →
  (members s !! id = None → delete_member id s = (Fail NotFound_member, s))
  ∧ (is_Some (members s !! id) →
     (∃ b, b ∈ ledger_values s ∧ Borrowing.member_id b = id
           ∧ Borrowing.status b = active) →
     delete_member id s = (Fail Conflict_member_has_borrowing, s))
  ∧ (is_Some (members s !! id) →
     (∀ b, b ∈ ledger_values s → Borrowing.member_id b = id →
           Borrowing.status b = returned) →
     delete_member id s
     = (Ok (), mkState (delete id (members s)) (books s) (borrowings s) (heap s))
     ∧ get_member id (delete_member id s).2 = Fail NotFound_member
     ∧ history id (delete_member id s).2 = Fail NotFound_member
     ∧ (∀ k, k ≠ id → members (delete_member id s).2 !! k = members s !! k)
     ∧ ledger_values (delete_member id s).2 = ledger_values s).
Proof.
  intros Hc%reachable_consistent.
  pose proof (ledger_values_of s (c_ledger _ s Hc)) as Hlv.
  unfold delete_member. split_and!.
  - by intros ->.
  - intros [m Hm] (b & Hb & Hk & Ha). rewrite Hm. rewrite Hlv in Hb.
    apply list_elem_of_lookup in Hb as [l Hl].
    pose proof (count_pos (active_of_member id) (heap s) l b Hl
                  (proj2 (active_of_member_true id b) (conj Hk Ha))) as Hpos.
    rewrite (c_member _ s Hc id m Hm) in Hpos.
    destruct (Member.has_borrowed m); [done|lia].
  - intros [m Hm] Hall. rewrite Hm. rewrite Hlv in Hall.
    apply count_active_member_elem in Hall.
    rewrite (c_member _ s Hc id m Hm) in Hall.
    destruct (Member.has_borrowed m); [done|]. simpl.
    unfold get_member, history. simpl. rewrite lookup_delete_eq.
    split_and!; try done.
    intros k Hk. by rewrite lookup_delete_ne.
Qed.

(** Member 1 of the demo cannot be deleted while the loan is out. *)
Lemma delete_member_behaviour_witness :
  reachable Demo.utc (Demo.lent Demo.utc Demo.spring_noon)
  ∧ delete_member 1 (Demo.lent Demo.utc Demo.spring_noon)
    = (Fail Conflict_member_has_borrowing, Demo.lent Demo.utc Demo.spring_noon).
Proof.
  pose proof (reachable_run Demo.utc (Demo.stock ++ [Borrow Demo.spring_noon 1 101])
                init (reachable_init Demo.utc)) as Hr.
  split; [exact Hr|].
  destruct (delete_member_behaviour Demo.utc 1 _ Hr) as (_ & H2 & _).
  apply H2.
  - exists (Member.mk 1 "Ada" 30 true [0%nat]). reflexivity.
  - exists Demo.first_loan. split; [vm_compute; left|split; reflexivity].
Defined.

(** X6: in every reachable state, deleting a book answers "not found" for
    an unknown id, is refused exactly when the book's [is_available] is
    false (the scan of the ledger and the flag agree), and otherwise
    removes the book and nothing else; the book can then neither be read
    nor borrowed. *)
Theorem delete_book_behaviour tz id s :
  reachable tz s →
  (books s !! id = None → delete_book id s = (Fail NotFound_book, s))
  ∧ (∀ b, books s !! id = Some b → Book.is_available b = false →
     delete_book id s = (Fail Conflict_book_borrowed, s))
  ∧ (∀ b, books s !! id = Some b → Book.is_available b = true →
     delete_book id s
     = (Ok (), mkState (members s) (delete id (books s)) (borrowings s) (heap s))
     ∧ get_book id (delete_book id s).2 = Fail NotFound_book
     ∧ (∀ k, k ≠ id → books (delete_book id s).2 !! k = books s !! k)
     ∧ (∀ now mid m, members s !! mid = Some m →
          borrow tz now mid id (delete_book id s).2
          = (Fail NotFound_book, (delete_book id s).2))).
Proof.
  intros Hc%reachable_consistent.
  pose proof (ledger_values_of s (c_ledger _ s Hc)) as Hlv.
  unfold delete_book. split_and!.
  - by intros ->.
  - intros b Hb Hav. by apply (delete_book_refused tz id s b).
  - intros b Hb Hav. rewrite Hb, Hlv.
    assert (existsb (is_active_on_book id) (heap s) = false) as ->.
    { apply not_true_is_false. rewrite existsb_count.
      change (is_active_on_book id) with (active_of_book id).
      rewrite (c_book _ s Hc id b Hb), Hav. lia. }
    simpl. unfold get_book, borrow. simpl. rewrite lookup_delete_eq.
    split_and!; try done.
    + intros k Hk. by rewrite lookup_delete_ne.
    + intros now mid m ->. done.
Qed.

(** Book 101 of the demo cannot be deleted while it is on loan. *)
Lemma delete_book_behaviour_witness :
  reachable Demo.utc (Demo.lent Demo.utc Demo.spring_noon)
  ∧ delete_book 101 (Demo.lent Demo.utc Demo.spring_noon)
    = (Fail Conflict_book_borrowed, Demo.lent Demo.utc Demo.spring_noon).
Proof.
  pose proof (reachable_run Demo.utc (Demo.stock ++ [Borrow Demo.spring_noon 1 101])
                init (reachable_init Demo.utc)) as Hr.
  split; [exact Hr|].
  destruct (delete_book_behaviour Demo.utc 101 _ Hr) as (_ & H2 & _).
  apply (H2 (Book.mk 101 "Dune" "Frank Herbert" "9780441013593" false));
    reflexivity.
Defined.

(** X7: when a member is deleted and the same id is registered again, the
    new member starts with an empty history, whatever the deleted member
    had borrowed; the ledger still holds all the old records. *)
Theorem reregistered_member_starts_afresh id nm ag s s1 v s2 :
  delete_member id s = (Ok (), s1) →
  create_member (Some id) (Some nm) (Some ag) s1 = (Ok v, s2) →
  history id s2 = Ok (id, nm, [])
  ∧ get_member id s2 = Ok (mkMemberView id nm ag false)
  ∧ ledger_values s2 = ledger_values s
  ∧ books s2 = books s.
Proof.
  unfold delete_member, create_member. intros Hd Hcr.
  destruct (members s !! id) as [m|]; [|done].
  destruct (Member.has_borrowed m); [done|]. injection Hd as <-.
  repeat case_match; try done. injection Hcr as <- <-.
  unfold history, get_member. simpl. by rewrite lookup_insert_eq.
Qed.

(** Ada borrows and returns a book, leaves, and registers again. *)
Lemma reregistered_member_starts_afresh_witness :
  history 1
    (run Demo.utc [Return (Demo.spring_noon + 5) 1 101]
       (Demo.lent Demo.utc Demo.spring_noon))
  = Ok (1, "Ada", [mkHistoryEntry 1 101 "Dune" Demo.spring_noon
                     (Some (Demo.spring_noon + 5)) returned])
  ∧ history 1
      (run Demo.utc [Return (Demo.spring_noon + 5) 1 101; DeleteMember 1;
                     CreateMember (Some 1) (Some "Ada") (Some 31)]
         (Demo.lent Demo.utc Demo.spring_noon))
    = Ok (1, "Ada", [])
  ∧ length (ledger_values
      (run Demo.utc [Return (Demo.spring_noon + 5) 1 101; DeleteMember 1;
                     CreateMember (Some 1) (Some "Ada") (Some 31)]
         (Demo.lent Demo.utc Demo.spring_noon))) = 1%nat.
Proof.
  split; [reflexivity|].
  destruct (reregistered_member_starts_afresh 1 "Ada" 31
              (run Demo.utc [Return (Demo.spring_noon + 5) 1 101]
                 (Demo.lent Demo.utc Demo.spring_noon))
              (run Demo.utc [Return (Demo.spring_noon + 5) 1 101; DeleteMember 1]
                 (Demo.lent Demo.utc Demo.spring_noon))
              (mkMemberView 1 "Ada" 31 false)
              (run Demo.utc [Return (Demo.spring_noon + 5) 1 101; DeleteMember 1;
                             CreateMember (Some 1) (Some "Ada") (Some 31)]
                 (Demo.lent Demo.utc Demo.spring_noon))
              eq_refl eq_refl) as (Hh & _ & Hl & _).
  split; [exact Hh|]. rewrite Hl. reflexivity.
Defined.

(* ===================================================================== *)
(** ** Borrow and Return together                                         *)
(* ===================================================================== *)

Lemma no_active_find_none tz s mid bid m :
  consistent tz s → members s !! mid = Some m →
  Member.has_borrowed m = false →
  List.find (λ e, is_active_loan mid bid e.2) (ledger_entries s) = None.
Proof.
  intros Hc Hm Hf.
  destruct (List.find _ _) as [[l b]|] eqn:E; [exfalso|done].
  apply find_active_Some in E as [Hl Hp]; [|by apply (c_ledger tz)].
  apply is_active_loan_true in Hp as (Hbm & _ & Hba).
  pose proof (count_pos (active_of_member mid) (heap s) l b Hl
                (proj2 (active_of_member_true mid b) (conj Hbm Hba))) as Hpos.
  rewrite (c_member _ s Hc mid m Hm), Hf in Hpos. lia.
Qed.

(** X8: from any reachable state, a successful Borrow followed by a
    successful Return of the same member and book puts the catalog back
    exactly as it was and the member back as it was except for one more
    history entry; the ledger has gained exactly one record, now returned.
    A second Return of the pair is rejected without any change, and the
    pair can borrow again, getting the next transaction id. *)
Theorem borrow_then_return_restores tz now1 now2 mid bid s r s1 r' s2 :
  reachable tz s →
  borrow tz now1 mid bid s = (Ok r, s1) →
  return_book now2 mid bid s1 = (Ok r', s2) →
  books s2 = books s
  ∧ (∃ m, members s !! mid = Some m
          ∧ members s2
            = <[mid := Member.push_history (length (heap s)) m]> (members s))
  ∧ r' = Borrowing.mark_returned now2 r
  ∧ heap s2 = heap s ++ [r']
  ∧ borrowings s2
    = borrowings s ++ [(Borrowing.transaction_id r, length (heap s))]
  ∧ (∀ now3, return_book now3 mid bid s2
             = (Fail Invalid_no_active_borrowing, s2))
  ∧ (∀ now3, ∃ r3 s3,
       borrow tz now3 mid bid s2 = (Ok r3, s3)
       ∧ Borrowing.transaction_id r3 = Borrowing.transaction_id r + 1).
Proof.
  intros Hreach Hborrow Hreturn.
  pose proof (reachable_consistent tz s Hreach) as Hc.
  assert (consistent tz s1) as Hc1.
  { pose proof (consistent_borrow tz now1 mid bid s Hc) as H.
    by rewrite Hborrow in H. }
  assert (consistent tz s2) as Hc2.
  { pose proof (consistent_return_book tz now2 mid bid s1 Hc1) as H.
    by rewrite Hreturn in H. }
  apply borrow_Ok in Hborrow as (m & b & Hm & Hb & Hmf & Hbf & Hr & Hs1).
  assert (borrowings s1
          = borrowings s ++ [(Borrowing.transaction_id r, length (heap s))])
    as Hled1.
  { rewrite Hs1. simpl. rewrite (map_set_next tz s _ Hc). by rewrite Hr. }
  apply return_Ok in Hreturn as (m' & l & b1 & bk & Hm' & Hf & Hbk & Hr' & Hs2).
  apply find_active_Some in Hf as [Hl Hp]; [|by apply (c_ledger tz)].
  rewrite Hs1 in Hl, Hm', Hbk. simpl in Hl, Hm', Hbk.
  rewrite lookup_insert_eq in Hm'. rewrite lookup_insert_eq in Hbk.
  injection Hm' as <-. injection Hbk as <-.
  destruct (return_after_borrow_finds_it tz s mid bid m r l b1 Hc Hm Hmf Hl Hp)
    as [-> ->].
  assert (books s2 = books s) as Hbooks.
  { rewrite Hs2, Hs1. simpl. rewrite insert_insert_eq.
    apply insert_id. rewrite Hb. f_equal. destruct b; simpl in *. by subst. }
  assert (members s2
          = <[mid := Member.push_history (length (heap s)) m]> (members s))
    as Hmem.
  { rewrite Hs2, Hs1. simpl. rewrite insert_insert_eq. f_equal.
    destruct m; simpl in *. by subst. }
  assert (heap s2 = heap s ++ [r']) as Hheap.
  { rewrite Hs2, Hs1. simpl.
    rewrite insert_app_r_alt by lia. by rewrite Nat.sub_diag. }
  assert (borrowings s2
          = borrowings s ++ [(Borrowing.transaction_id r, length (heap s))])
    as Hled.
  { rewrite Hs2. simpl. exact Hled1. }
  assert (members s2 !! mid
          = Some (Member.push_history (length (heap s)) m)) as Hm2
    by (by rewrite Hmem, lookup_insert_eq).
  split_and!; try done.
  - by exists m.
  - intros now3. unfold return_book. rewrite Hm2.
    by rewrite (no_active_find_none tz s2 mid bid _ Hc2 Hm2).
  - intros now3. unfold borrow. rewrite Hm2, Hbooks, Hb. simpl.
    rewrite Hmf, Hbf. simpl. eexists _, _. split; [done|]. simpl.
    rewrite Hled. unfold map_size. rewrite length_app. simpl.
    rewrite Hr. simpl. unfold map_size. lia.
Qed.

(** The demo loan, returned five milliseconds later. *)
Lemma borrow_then_return_restores_witness :
  reachable Demo.utc (Demo.stocked Demo.utc)
  ∧ books (return_book (Demo.spring_noon + 5) 1 101
             (Demo.lent Demo.utc Demo.spring_noon)).2
    = books (Demo.stocked Demo.utc)
  ∧ return_book (Demo.spring_noon + 9) 1 101
      (return_book (Demo.spring_noon + 5) 1 101
         (Demo.lent Demo.utc Demo.spring_noon)).2
    = (Fail Invalid_no_active_borrowing,
       (return_book (Demo.spring_noon + 5) 1 101
          (Demo.lent Demo.utc Demo.spring_noon)).2).
Proof.
  pose proof (reachable_run Demo.utc Demo.stock init (reachable_init Demo.utc))
    as Hr.
  split; [exact Hr|].
  destruct (borrow_then_return_restores Demo.utc Demo.spring_noon
              (Demo.spring_noon + 5) 1 101 _ Demo.first_loan
              (Demo.lent Demo.utc Demo.spring_noon)
              (Borrowing.mark_returned (Demo.spring_noon + 5) Demo.first_loan)
              (return_book (Demo.spring_noon + 5) 1 101
                 (Demo.lent Demo.utc Demo.spring_noon)).2
              Hr eq_refl eq_refl) as (Hb & _ & _ & _ & _ & Hret & _).
  split; [exact Hb | exact (Hret (Demo.spring_noon + 9))].
Defined.

Lemma count_two {A} (p : A → bool) (l : list A) i j x y :
  i ≠ j → l !! i = Some x → l !! j = Some y → p x = true → p y = true →
  (2 ≤ count p l)%nat.
Proof.
  revert i j. induction l as [|z l IH]; intros [|i] [|j] Hne Hi Hj Hx Hy;
    simplify_eq/=; rewrite count_cons.
  - rewrite Hx. pose proof (count_pos p l j y Hj Hy). lia.
  - rewrite Hy. pose proof (count_pos p l i x Hi Hx). lia.
  - assert (i ≠ j) as Hne' by congruence.
    pose proof (IH i j Hne' Hi Hj Hx Hy). lia.
Qed.

(** X9: in every reachable state, as long as a borrowing is active (from
    its Borrow until its Return), the borrower is refused every further
    book as already borrowed; any other member is refused the book, as
    unavailable when they have nothing on loan and as already borrowed
    when they have, and cannot return it; and neither the borrower nor the
    book can be deleted.  Each refusal leaves the state unchanged.  A
    successful Borrow leaves its record active in a reachable state. *)
Theorem loan_blocks_member_and_book tz s :
  reachable tz s →
  (∀ r, r ∈ ledger_values s → Borrowing.status r = active →
     (∀ now bid, is_Some (books s !! bid) →
        borrow tz now (Borrowing.member_id r) bid s
        = (Fail Conflict_already_borrowed, s))
     ∧ (∀ now mid m, members s !! mid = Some m →
        mid ≠ Borrowing.member_id r →
        borrow tz now mid (Borrowing.book_id r) s
        = (Fail (if Member.has_borrowed m then Conflict_already_borrowed
                 else Conflict_unavailable), s))
     ∧ (∀ now mid, is_Some (members s !! mid) →
        mid ≠ Borrowing.member_id r →
        return_book now mid (Borrowing.book_id r) s
        = (Fail Invalid_no_active_borrowing, s))
     ∧ delete_member (Borrowing.member_id r) s
       = (Fail Conflict_member_has_borrowing, s)
     ∧ delete_book (Borrowing.book_id r) s = (Fail Conflict_book_borrowed, s))
  ∧ (∀ now mid bid r s', borrow tz now mid bid s = (Ok r, s') →
     reachable tz s' ∧ r ∈ ledger_values s'
     ∧ Borrowing.status r = active
     ∧ Borrowing.member_id r = mid ∧ Borrowing.book_id r = bid).
Proof.
  intros Hreach.
  pose proof (reachable_consistent tz s Hreach) as Hc.
  split.
  - intros r Hr Ha.
    rewrite (ledger_values_of s (c_ledger _ s Hc)) in Hr.
    apply list_elem_of_lookup in Hr as [l Hl].
    destruct (c_ref_member _ s Hc l r Hl Ha) as [m Hm].
    destruct (c_ref_book _ s Hc l r Hl Ha) as [b Hb].
    assert (Member.has_borrowed m = true) as Hmf.
    { pose proof (count_pos (active_of_member (Borrowing.member_id r)) (heap s)
                    l r Hl (proj2 (active_of_member_true _ r) (conj eq_refl Ha)))
        as Hpos.
      rewrite (c_member _ s Hc _ m Hm) in Hpos.
      destruct (Member.has_borrowed m); [done|lia]. }
    assert (Book.is_available b = false) as Hbf.
    { pose proof (count_pos (active_of_book (Borrowing.book_id r)) (heap s)
                    l r Hl (proj2 (active_of_book_true _ r) (conj eq_refl Ha)))
        as Hpos.
      rewrite (c_book _ s Hc _ b Hb) in Hpos.
      destruct (Book.is_available b); [lia|done]. }
    split_and!.
    + intros now bid [b' Hb']. unfold borrow. by rewrite Hm, Hb', Hmf.
    + intros now mid m' Hm' Hne. unfold borrow. rewrite Hm', Hb, Hbf.
      by destruct (Member.has_borrowed m').
    + intros now mid [m' Hm'] Hne. unfold return_book. rewrite Hm'.
      destruct (List.find _ _) as [[l0 b0]|] eqn:E; [exfalso|done].
      apply find_active_Some in E as [Hl0 Hp]; [|by apply (c_ledger tz)].
      apply is_active_loan_true in Hp as (Hbm & Hbb & Hba).
      assert (l0 ≠ l) as Hll by (intros ->; congruence).
      pose proof (count_two (active_of_book (Borrowing.book_id r)) (heap s)
                    l0 l b0 r Hll Hl0 Hl
                    (proj2 (active_of_book_true _ b0) (conj Hbb Hba))
                    (proj2 (active_of_book_true _ r) (conj eq_refl Ha)))
        as Htwo.
      rewrite (c_book _ s Hc _ b Hb), Hbf in Htwo. lia.
    + unfold delete_member. by rewrite Hm, Hmf.
    + by apply (delete_book_refused tz _ s b).
  - intros now mid bid r s' Hborrow.
    assert (reachable tz s') as Hreach'.
    { pose proof (reachable_step tz (Borrow now mid bid) s Hreach) as H.
      simpl in H. by rewrite Hborrow in H. }
    pose proof (reachable_consistent tz s' Hreach') as Hc'.
    apply borrow_Ok in Hborrow as (m & b & _ & _ & _ & _ & Hr & Hs').
    split; [done|].
    rewrite (ledger_values_of s' (c_ledger _ s' Hc')).
    split_and!; try (by rewrite Hr).
    rewrite Hs'. simpl. apply elem_of_app. right. by left.
Qed.

(** Ada has book 101 and Ben has book 102: Ben asking for book 101 is
    refused as already borrowed, and Ada cannot be deleted. *)
Lemma loan_blocks_member_and_book_witness :
  reachable Demo.utc Demo.two_loans
  ∧ (borrow Demo.utc (Demo.spring_noon + 2) 2 101 Demo.two_loans).1
    = Fail Conflict_already_borrowed
  ∧ (delete_member 1 Demo.two_loans).1 = Fail Conflict_member_has_borrowing.
Proof.
  assert (reachable Demo.utc Demo.two_loans) as Hr.
  { apply reachable_run, reachable_run, reachable_init. }
  split; [exact Hr|].
  destruct (loan_blocks_member_and_book Demo.utc _ Hr) as [Hblock _].
  assert (Demo.first_loan ∈ ledger_values Demo.two_loans) as Hin
    by (vm_compute; left).
  destruct (Hblock Demo.first_loan Hin eq_refl) as (_ & H2 & _ & H4 & _).
  split.
  - assert (2 ≠ Borrowing.member_id Demo.first_loan) as Hne
      by (intros Heq; discriminate Heq).
    exact (f_equal fst
             (H2 (Demo.spring_noon + 2) 2 (Member.mk 2 "Ben" 20 true [1%nat])
                eq_refl Hne)).
  - exact (f_equal fst H4).
Defined.

(* ===================================================================== *)
(** ** The borrowed list and the overdue list                             *)
(* ===================================================================== *)

Lemma list_borrowed_filter s :
  list_borrowed s
  = borrowed_view <$> filter (λ b, Borrowing.status b = active) (ledger_values s).
Proof. unfold list_borrowed. by rewrite filter_bool_decide. Qed.

Lemma StronglySorted_sublist {A} (R : relation A) (l1 l2 : list A) :
  l1 `sublist_of` l2 → StronglySorted R l2 → StronglySorted R l1.
Proof.
  induction 1 as [|x l1 l2 Hsub IH|x l1 l2 Hsub IH]; intros Hs; [done|..].
  - apply StronglySorted_cons in Hs as [Hx Hs]. constructor; [by apply IH|].
    rewrite list.Forall_forall in Hx |- *. intros y Hy. apply Hx.
    by eapply elem_of_sublist.
  - apply StronglySorted_cons in Hs as [_ Hs]. by apply IH.
Qed.

Lemma count_pos_elem {A} (p : A → bool) (l : list A) :
  (0 < count p l)%nat → ∃ x, x ∈ l ∧ p x = true.
Proof.
  induction l as [|x l IH]; [rewrite count_nil; lia|].
  rewrite count_cons. destruct (p x) eqn:Hx.
  - intros _. exists x. split; [left|done].
  - intros [y [Hy Hp]]%IH. exists y. split; [by right|done].
Qed.

(** When no key has two active records, the active records have distinct
    keys. *)
Lemma NoDup_keys_of_active (f : Borrowing.t → Z) (p : Z → Borrowing.t → bool)
    (l : list Borrowing.t) :
  (∀ k b, p k b = true ↔ f b = k ∧ Borrowing.status b = active) →
  (∀ k, (count (p k) l ≤ 1)%nat) →
  NoDup (f <$> filter (λ b, Borrowing.status b = active) l).
Proof.
  intros Hp. induction l as [|x l IH]; intros Hcnt; [constructor|].
  assert (∀ k, (count (p k) l ≤ 1)%nat) as Hcnt'.
  { intros k. specialize (Hcnt k). rewrite count_cons in Hcnt. lia. }
  rewrite filter_cons. destruct (decide (Borrowing.status x = active)) as [Ha|Ha];
    [|by apply IH].
  csimpl. constructor; [|by apply IH].
  intros (y & Hfy & [Hya Hy]%list_elem_of_filter)%list_elem_of_fmap.
  apply list_elem_of_lookup in Hy as [i Hi].
  pose proof (count_pos (p (f x)) l i y Hi
                (proj2 (Hp (f x) y) (conj (eq_sym Hfy) Hya))) as Hpos.
  specialize (Hcnt (f x)). rewrite count_cons in Hcnt.
  rewrite (proj2 (Hp (f x) x) (conj eq_refl Ha)) in Hcnt. lia.
Qed.

(** X10: in every reachable state the borrowed list shows exactly the
    loans that are out: every entry names a member whose [has_borrowed] is
    true and a book whose [is_available] is false, every such member and
    every such book has an entry, no member and no book appears twice, and
    the entries come in ascending order of transaction id. *)
Theorem list_borrowed_shows_loans_out tz s :
  reachable tz s →
  (∀ v, v ∈ list_borrowed s →
     ∃ m b, members s !! bv_member_id v = Some m
            ∧ Member.has_borrowed m = true
            ∧ books s !! bv_book_id v = Some b
            ∧ Book.is_available b = false)
  ∧ (∀ k m, members s !! k = Some m → Member.has_borrowed m = true →
       ∃ v, v ∈ list_borrowed s ∧ bv_member_id v = k)
  ∧ (∀ k b, books s !! k = Some b → Book.is_available b = false →
       ∃ v, v ∈ list_borrowed s ∧ bv_book_id v = k)
  ∧ NoDup (bv_member_id <$> list_borrowed s)
  ∧ NoDup (bv_book_id <$> list_borrowed s)
  ∧ StronglySorted Z.lt (bv_transaction_id <$> list_borrowed s).
Proof.
  intros Hc%reachable_consistent.
  rewrite list_borrowed_filter, (ledger_values_of s (c_ledger _ s Hc)).
  assert (∀ k, (count (active_of_member k) (heap s) ≤ 1)%nat) as Hcm.
  { intros k. destruct (members s !! k) as [m|] eqn:Hm.
    - rewrite (c_member _ s Hc k m Hm). destruct (Member.has_borrowed m); lia.
    - rewrite (absent_member_no_active tz s k Hc Hm). lia. }
  assert (∀ k, (count (active_of_book k) (heap s) ≤ 1)%nat) as Hcb.
  { intros k. destruct (books s !! k) as [b|] eqn:Hb.
    - rewrite (c_book _ s Hc k b Hb). destruct (Book.is_available b); lia.
    - rewrite (absent_book_no_active tz s k Hc Hb). lia. }
  split_and!.
  - intros v (r & -> & [Ha Hr]%list_elem_of_filter)%list_elem_of_fmap. simpl.
    apply list_elem_of_lookup in Hr as [l Hl].
    destruct (c_ref_member _ s Hc l r Hl Ha) as [m Hm].
    destruct (c_ref_book _ s Hc l r Hl Ha) as [b Hb].
    exists m, b. split_and!; try done.
    + pose proof (count_pos (active_of_member (Borrowing.member_id r)) (heap s)
                    l r Hl (proj2 (active_of_member_true _ r) (conj eq_refl Ha)))
        as Hpos.
      rewrite (c_member _ s Hc _ m Hm) in Hpos.
      destruct (Member.has_borrowed m); [done|lia].
    + pose proof (count_pos (active_of_book (Borrowing.book_id r)) (heap s)
                    l r Hl (proj2 (active_of_book_true _ r) (conj eq_refl Ha)))
        as Hpos.
      rewrite (c_book _ s Hc _ b Hb) in Hpos.
      destruct (Book.is_available b); [lia|done].
  - intros k m Hm Hhb.
    pose proof (c_member _ s Hc k m Hm) as Hcnt. rewrite Hhb in Hcnt.
    destruct (count_pos_elem (active_of_member k) (heap s)) as (r & Hr & Hp);
      [lia|].
    apply active_of_member_true in Hp as [Hk Ha].
    exists (borrowed_view r). split; [|done].
    apply list_elem_of_fmap. exists r. split; [done|].
    by apply list_elem_of_filter.
  - intros k b Hb Hav.
    pose proof (c_book _ s Hc k b Hb) as Hcnt. rewrite Hav in Hcnt.
    destruct (count_pos_elem (active_of_book k) (heap s)) as (r & Hr & Hp);
      [lia|].
    apply active_of_book_true in Hp as [Hk Ha].
    exists (borrowed_view r). split; [|done].
    apply list_elem_of_fmap. exists r. split; [done|].
    by apply list_elem_of_filter.
  - rewrite <- list_fmap_compose.
    apply (NoDup_keys_of_active Borrowing.member_id active_of_member);
      [apply active_of_member_true | done].
  - rewrite <- list_fmap_compose.
    apply (NoDup_keys_of_active Borrowing.book_id active_of_book);
      [apply active_of_book_true | done].
  - rewrite <- list_fmap_compose.
    eapply (StronglySorted_sublist _ _ (Borrowing.transaction_id <$> heap s)).
    + apply fmap_sublist, sublist_filter.
    + change (StronglySorted Z.lt (assigned_ids s)).
      rewrite (assigned_ids_seqZ tz s Hc). apply seqZ_StronglySorted.
Qed.

(** The borrowed list of the demo has its one loan. *)
Lemma list_borrowed_shows_loans_out_witness :
  reachable Demo.utc (Demo.lent Demo.utc Demo.spring_noon)
  ∧ NoDup (bv_member_id <$> list_borrowed (Demo.lent Demo.utc Demo.spring_noon))
  ∧ ∃ v, v ∈ list_borrowed (Demo.lent Demo.utc Demo.spring_noon)
         ∧ bv_member_id v = 1.
Proof.
  pose proof (reachable_run Demo.utc (Demo.stock ++ [Borrow Demo.spring_noon 1 101])
                init (reachable_init Demo.utc)) as Hr.
  split; [exact Hr|].
  destruct (list_borrowed_shows_loans_out Demo.utc _ Hr)
    as (_ & H2 & _ & H4 & _).
  split; [exact H4|].
  exact (H2 1 (Member.mk 1 "Ada" 30 true [0%nat]) eq_refl eq_refl).
Defined.

Lemma overdue_elem now s v :
  v ∈ overdue now s
  ↔ ∃ b, b ∈ ledger_values s ∧ Borrowing.status b = active
         ∧ Borrowing.due_date b < now
         ∧ v = mkOverdueView (borrowed_view b)
                 ((now - Borrowing.due_date b) / Date.msPerDay).
Proof.
  rewrite overdue_filter, list_elem_of_fmap. split.
  - intros (b & -> & (Hp & Hb)%list_elem_of_filter). exists b. tauto.
  - intros (b & Hb & Ha & Hd & ->). exists b. split; [done|].
    apply list_elem_of_filter. tauto.
Qed.

(** X11: whatever the state, the loans of the overdue list are loans of
    the borrowed list, in the same order; a loan that is overdue at one
    time is overdue at every later time, by at least as many days; and the
    overdue list is empty when no active loan is past its due date, in
    particular when nothing is out on loan. *)
Theorem overdue_within_borrowed s :
  (∀ now, ov_borrowing <$> overdue now s `sublist_of` list_borrowed s)
  ∧ (∀ now now' v, now ≤ now' → v ∈ overdue now s →
       ∃ v', v' ∈ overdue now' s ∧ ov_borrowing v' = ov_borrowing v
             ∧ days_overdue v ≤ days_overdue v')
  ∧ (∀ now, (∀ b, b ∈ ledger_values s → Borrowing.status b = active →
                  now ≤ Borrowing.due_date b) →
       overdue now s = [])
  ∧ (∀ now, list_borrowed s = [] → overdue now s = []).
Proof.
  assert (∀ now, ov_borrowing <$> overdue now s `sublist_of` list_borrowed s)
    as Hsub.
  { intros now. rewrite overdue_filter, list_borrowed_filter,
      <- list_fmap_compose.
    change (ov_borrowing ∘ _) with borrowed_view.
    apply fmap_sublist.
    induction (ledger_values s) as [|b l IH]; [done|].
    rewrite !filter_cons.
    destruct (decide (Borrowing.status b = active ∧ Borrowing.due_date b < now))
      as [[Ha Hd]|Hn].
    - rewrite decide_True by done. by apply sublist_skip.
    - destruct (decide (Borrowing.status b = active)); [|done].
      by apply sublist_cons. }
  split_and!.
  - done.
  - intros now now' v Hle (b & Hb & Ha & Hd & ->)%overdue_elem.
    exists (mkOverdueView (borrowed_view b)
              ((now' - Borrowing.due_date b) / Date.msPerDay)).
    split_and!; [|done|].
    + apply overdue_elem. exists b. split_and!; try done. lia.
    + simpl. apply Z.div_le_mono; [by vm_compute|lia].
  - intros now Hall.
    destruct (overdue now s) as [|v l] eqn:E; [done|exfalso].
    assert (v ∈ overdue now s) as (b & Hb & Ha & Hd & _)%overdue_elem
      by (rewrite E; left).
    specialize (Hall b Hb Ha). lia.
  - intros now Hnil. specialize (Hsub now). rewrite Hnil in Hsub.
    apply sublist_nil_r in Hsub. by apply fmap_nil_inv in Hsub.
Qed.



(* ===================================================================== *)
(** ** Life of a record, of a history, of the stored data                 *)
(* ===================================================================== *)

(** X13: no request removes or replaces a ledger record.  After any
    request every record is still at its place, unchanged, unless it was
    active and the request was a Return for its member and book, which
    marks it returned; a returned record never changes again; and the
    ledger keeps all its entries in place, growing only at the end. *)
Theorem records_only_move_forward tz op s l b :
  reachable tz s →
  heap s !! l = Some b →
  ∃ b', heap (exec tz op s) !! l = Some b'
        ∧ (b' = b
           ∨ (Borrowing.status b = active
              ∧ ∃ now, op = Return now (Borrowing.member_id b)
                                (Borrowing.book_id b)
                       ∧ b' = Borrowing.mark_returned now b))
        ∧ (Borrowing.status b = returned → b' = b)
        ∧ borrowings s `prefix_of` borrowings (exec tz op s).
Proof.
  intros Hreach Hl.
  pose proof (reachable_consistent tz s Hreach) as Hc.
  assert (∀ s', heap s' = heap s → borrowings s' = borrowings s →
            ∃ b', heap s' !! l = Some b'
                  ∧ (b' = b
                     ∨ (Borrowing.status b = active
                        ∧ ∃ now, op = Return now (Borrowing.member_id b)
                                          (Borrowing.book_id b)
                                 ∧ b' = Borrowing.mark_returned now b))
                  ∧ (Borrowing.status b = returned → b' = b)
                  ∧ borrowings s `prefix_of` borrowings s') as Hsame.
  { intros s' Hh Hb. exists b. rewrite Hh, Hb. split_and!; try done. by left. }
  destruct op as [i n a|i n a|now m k|now m k|i|i t a n|i]; simpl.
  - apply Hsame; unfold create_member;
      destruct i, n, a; try done; by repeat case_match.
  - apply Hsame; unfold update_member; by repeat case_match.
  - destruct (borrow tz now m k s) as [[r|e|] s'] eqn:E; simpl.
    2,3: pose proof (borrow_not_Ok tz now m k s) as Hs; rewrite E in Hs;
         simpl in Hs; rewrite Hs by done; by apply Hsame.
    apply borrow_Ok in E as (? & ? & _ & _ & _ & _ & _ & ->). simpl.
    rewrite (map_set_next tz s _ Hc).
    exists b. split_and!; try done.
    + by apply lookup_app_l_Some.
    + by left.
    + by apply prefix_app_r.
  - pose proof (return_no_throw tz now m k s Hc) as Hnt.
    destruct (return_book now m k s) as [[r|e|] s'] eqn:E; simpl; [| |done].
    2: { apply return_Fail in E as ->. by apply Hsame. }
    apply return_Ok in E as (? & l0 & b0 & ? & _ & Hf & _ & Hr & ->). simpl.
    apply find_active_Some in Hf as [Hl0 Hp]; [|by apply (c_ledger tz)].
    apply is_active_loan_true in Hp as (Hbm & Hbb & Hba).
    destruct (decide (l = l0)) as [->|Hne].
    + assert (b0 = b) as -> by congruence.
      exists r. rewrite list_lookup_insert_eq by (by eapply lookup_lt_Some).
      split_and!; try done.
      * right. split; [done|]. exists now. by rewrite Hbm, Hbb.
      * congruence.
    + exists b. rewrite list_lookup_insert_ne by done.
      split_and!; try done. by left.
  - apply Hsame; unfold delete_member; by repeat case_match.
  - apply Hsame; unfold add_book;
      destruct i, t, a, n; try done; by repeat case_match.
  - apply Hsame; unfold delete_book; by repeat case_match.
Qed.

(** The one record of the demo run survives a deletion request. *)
Lemma records_only_move_forward_witness :
  reachable Demo.utc (Demo.lent Demo.utc Demo.spring_noon)
  ∧ heap (exec Demo.utc (DeleteBook 101) (Demo.lent Demo.utc Demo.spring_noon))
      !! 0%nat
    = Some Demo.first_loan.
Proof.
  pose proof (reachable_run Demo.utc (Demo.stock ++ [Borrow Demo.spring_noon 1 101])
                init (reachable_init Demo.utc)) as Hr.
  split; [exact Hr|].
  destruct (records_only_move_forward Demo.utc (DeleteBook 101) _ 0
              Demo.first_loan Hr eq_refl) as (b' & Hb' & [->|[_ [now [Hop _]]]] & _).
  - exact Hb'.
  - discriminate Hop.
Defined.

Section Histories.
Variable tz : Z → bool → Z.

(** What a request does to the history of a member who exists. *)
Lemma exec_history_forward op s k m :
  members s !! k = Some m →
  (op = DeleteMember k ∧ members (exec tz op s) !! k = None)
  ∨ ∃ m', members (exec tz op s) !! k = Some m'
          ∧ (Member.history m' = Member.history m
             ∨ (Member.history m' = Member.history m ++ [length (heap s)]
                ∧ ∃ now bid r s',
                    op = Borrow now k bid
                    ∧ borrow tz now k bid s = (Ok r, s'))).
Proof.
  intros Hm.
  assert (∀ s', members s' = members s →
            ∃ m', members s' !! k = Some m'
                  ∧ (Member.history m' = Member.history m
                     ∨ (Member.history m' = Member.history m ++ [length (heap s)]
                        ∧ ∃ now bid r s0,
                            op = Borrow now k bid
                            ∧ borrow tz now k bid s = (Ok r, s0)))) as Hsame.
  { intros s' ->. exists m. split; [done|]. by left. }
  destruct op as [i n a|i n a|now mid bid|now mid bid|i|i t a n|i]; simpl.
  - right. unfold create_member.
    destruct i as [id|], n as [nm|], a as [ag|]; try (by apply Hsame).
    destruct (negb _ || negb _); [by apply Hsame|].
    case_bool_decide as Hex; [by apply Hsame|].
    case_bool_decide; [by apply Hsame|]. simpl.
    rewrite lookup_insert_ne; [by apply (Hsame s)|].
    intros ->. apply Hex. by eexists.
  - right. unfold update_member.
    destruct (members s !! i) as [mi|] eqn:Hi; [|by apply Hsame].
    destruct (match a with Some a0 => bool_decide (a0 < 12) | None => false end);
      [by apply Hsame|].
    cbv zeta. simpl. rewrite lookup_insert.
    destruct (decide (i = k)) as [->|Hne]; [|by apply (Hsame s)].
    eexists. split; [done|]. left.
    replace mi with m by congruence.
    destruct n, a; simpl; by repeat case_match.
  - right. destruct (borrow tz now mid bid s) as [[r|e|] s'] eqn:E; simpl.
    2,3: pose proof (borrow_not_Ok tz now mid bid s) as Hs; rewrite E in Hs;
         simpl in Hs; rewrite Hs by done; by apply (Hsame s).
    pose proof E as E'.
    apply borrow_Ok in E as (m0 & ? & Hm0 & _ & _ & _ & _ & Hs').
    pose proof (f_equal members Hs') as Hmem. simpl in Hmem. rewrite Hmem.
    rewrite lookup_insert. destruct (decide (mid = k)) as [->|Hne];
      [|by apply (Hsame s)].
    eexists. split; [done|]. right. simpl.
    replace m0 with m by congruence. split; [done|]. by exists now, bid, r, s'.
  - right. unfold return_book.
    destruct (members s !! mid) as [m0|] eqn:Hm0; [|by apply Hsame].
    destruct (List.find _ _) as [[l b0]|]; [|by apply Hsame].
    assert (∃ m', <[mid := Member.set_has_borrowed false m0]> (members s) !! k
                  = Some m'
                  ∧ (Member.history m' = Member.history m
                     ∨ (Member.history m' = Member.history m ++ [length (heap s)]
                        ∧ ∃ now0 bid0 r s0,
                            Return now mid bid = Borrow now0 k bid0
                            ∧ borrow tz now0 k bid0 s = (Ok r, s0))))
      as Hres.
    { rewrite lookup_insert. destruct (decide (mid = k)) as [->|Hne].
      - eexists. split; [done|]. left. simpl. congruence.
      - exists m. split; [done|]. by left. }
    by destruct (books s !! bid).
  - unfold delete_member.
    destruct (members s !! i) as [mi|] eqn:Hi; [|right; by apply Hsame].
    destruct (Member.has_borrowed mi); [right; by apply Hsame|]. simpl.
    destruct (decide (i = k)) as [->|Hne].
    + left. by rewrite lookup_delete_eq.
    + right. rewrite lookup_delete_ne by done. by apply (Hsame s).
  - right. apply Hsame. unfold add_book.
    destruct i, t, a, n; try done; by repeat case_match.
  - right. apply Hsame. unfold delete_book. by repeat case_match.
Qed.

(** A member who appears starts with an empty history. *)
Lemma exec_history_new op s k m' :
  members s !! k = None → members (exec tz op s) !! k = Some m' →
  Member.history m' = [].
Proof.
  intros Hno.
  destruct op as [i n a|i n a|now mid bid|now mid bid|i|i t a n|i]; simpl.
  - unfold create_member.
    destruct i as [id|], n as [nm|], a as [ag|]; try (simpl; congruence).
    destruct (negb _ || negb _); [simpl; congruence|].
    destruct (bool_decide (is_Some _)); [simpl; congruence|].
    destruct (bool_decide (ag < 12)); [simpl; congruence|]. simpl.
    rewrite lookup_insert.
    destruct (decide (id = k)) as [->|?]; [by intros [= <-]|congruence].
  - unfold update_member.
    destruct (members s !! i) as [mi|] eqn:Hi; [|simpl; congruence].
    repeat case_match; simpl; try congruence;
      (rewrite lookup_insert_ne by congruence); congruence.
  - destruct (borrow tz now mid bid s) as [[r|e|] s'] eqn:E; simpl.
    2,3: pose proof (borrow_not_Ok tz now mid bid s) as Hs; rewrite E in Hs;
         simpl in Hs; rewrite Hs by done; congruence.
    apply borrow_Ok in E as (m0 & ? & Hm0 & _ & _ & _ & _ & ->). simpl.
    rewrite lookup_insert_ne by congruence. congruence.
  - unfold return_book.
    destruct (members s !! mid) as [m0|] eqn:Hm0; [|simpl; congruence].
    destruct (List.find _ _) as [[l b0]|]; [|simpl; congruence].
    destruct (books s !! bid); simpl;
      (rewrite lookup_insert_ne by congruence); congruence.
  - unfold delete_member. repeat case_match; simpl; try congruence.
    intros [_ ?]%lookup_delete_Some. congruence.
  - unfold add_book. destruct i, t, a, n; simpl; try congruence.
    repeat case_match; simpl; congruence.
  - unfold delete_book. repeat case_match; simpl; congruence.
Qed.

Lemma history_locs_sorted s :
  reachable tz s →
  ∀ k m, members s !! k = Some m → StronglySorted lt (Member.history m).
Proof.
  induction 1 as [|op s Hreach IH]; [by intros k m ?|].
  pose proof (reachable_consistent tz s Hreach) as Hc.
  intros k m' Hm'.
  destruct (members s !! k) as [m|] eqn:Hm.
  - destruct (exec_history_forward op s k m Hm)
      as [[_ Hno]|(m0 & Hm0 & [Hh|[Hh _]])]; [congruence|..].
    + replace m' with m0 by congruence. rewrite Hh. by eapply IH.
    + replace m' with m0 by congruence. rewrite Hh.
      apply StronglySorted_app_2; [|by eapply IH|repeat constructor].
      intros l1 l2 Hl1 ->%list_elem_of_singleton.
      destruct (c_history _ s Hc k m l1 Hm Hl1) as (b & Hb & _).
      by eapply lookup_lt_Some.
  - rewrite (exec_history_new op s k m' Hm Hm'). constructor.
Qed.

(** The transaction ids that History shows are the ids of the locations
    in the member's history. *)
Lemma history_ids s k m :
  consistent tz s → members s !! k = Some m →
  he_transaction_id <$>
    omap (λ l, history_entry <$> heap s !! l) (Member.history m)
  = (λ l : nat, Z.of_nat l + 1) <$> Member.history m.
Proof.
  intros Hc Hm.
  assert (∀ l, l ∈ Member.history m → ∃ b, heap s !! l = Some b) as Hloc.
  { intros l Hl. destruct (c_history _ s Hc k m l Hm Hl) as (b & Hb & _). eauto. }
  induction (Member.history m) as [|l h IH]; [done|]. csimpl.
  destruct (Hloc l) as [b Hb]; [left|]. rewrite Hb. csimpl.
  rewrite IH by (intros l' Hl'; apply Hloc; by right).
  by rewrite (c_tid _ s Hc l b Hb).
Qed.
End Histories.

(** X14: in every reachable state History lists a member's borrowings in
    ascending order of transaction id, oldest first.  A further request
    changes the list of ids in exactly one of three ways: a successful
    Borrow by the member adds one id, the ledger size plus one, at the end;
    a successful deletion of the member makes History answer "not found";
    every other request, a refused Borrow or a refused deletion included,
    leaves the ids as they are. *)
Theorem history_grows_in_order tz s id name es :
  reachable tz s →
  history id s = Ok (id, name, es) →
  StronglySorted Z.lt (he_transaction_id <$> es)
  ∧ (∀ now bid r s', borrow tz now id bid s = (Ok r, s') →
       ∃ name' es',
         history id (exec tz (Borrow now id bid) s) = Ok (id, name', es')
         ∧ he_transaction_id <$> es'
           = (he_transaction_id <$> es) ++ [map_size (borrowings s) + 1])
  ∧ ((delete_member id s).1 = Ok () →
       history id (exec tz (DeleteMember id) s) = Fail NotFound_member)
  ∧ (∀ op,
       (∀ now bid r, op = Borrow now id bid →
                     (borrow tz now id bid s).1 ≠ Ok r) →
       (op = DeleteMember id → (delete_member id s).1 ≠ Ok ()) →
       ∃ name' es',
         history id (exec tz op s) = Ok (id, name', es')
         ∧ he_transaction_id <$> es' = he_transaction_id <$> es).
Proof.
  intros Hreach Hh.
  pose proof (reachable_consistent tz s Hreach) as Hc.
  unfold history in Hh.
  destruct (members s !! id) as [m|] eqn:Hm; [|done].
  injection Hh as <- <-.
  rewrite (history_ids tz s id m Hc Hm). split_and!.
  - eapply StronglySorted_fmap; [|by eapply history_locs_sorted].
    intros x y Hxy. simpl. lia.
  - intros now bid r s' E.
    pose proof (consistent_exec tz (Borrow now id bid) s Hc) as Hc'.
    simpl in *. rewrite E in *. simpl in *.
    apply borrow_Ok in E as (m0 & b0 & Hm0 & _ & _ & _ & _ & Hs').
    assert (members s' !! id
            = Some (Member.push_history (length (heap s))
                      (Member.set_has_borrowed true m))) as Hm'.
    { rewrite Hs'. simpl. rewrite lookup_insert_eq. congruence. }
    unfold history. rewrite Hm'. eexists _, _. split; [done|].
    rewrite (history_ids tz s' id _ Hc' Hm'). simpl.
    rewrite fmap_app. simpl. unfold map_size.
    by rewrite (c_ledger _ s Hc), ledger_of_length.
  - simpl. unfold delete_member. rewrite Hm.
    destruct (Member.has_borrowed m); [done|]. intros _.
    unfold history. simpl. by rewrite lookup_delete_eq.
  - intros op Hnb Hnd.
    pose proof (consistent_exec tz op s Hc) as Hc'.
    destruct (exec_history_forward tz op s id m Hm)
      as [[-> Hno]|(m' & Hm' & Hcases)].
    + exfalso. apply Hnd; [done|]. simpl in Hno. revert Hno.
      unfold delete_member. rewrite Hm.
      destruct (Member.has_borrowed m); [simpl; congruence|done].
    + unfold history. rewrite Hm'. eexists _, _. split; [done|].
      rewrite (history_ids tz _ id m' Hc' Hm').
      destruct Hcases as [->|[_ (now & bid & r & s' & -> & E)]]; [done|].
      exfalso. apply (Hnb now bid r eq_refl). by rewrite E.
Qed.

(** Ada has returned her first loan; borrowing again puts transaction 2
    after transaction 1 in her history. *)
Lemma history_grows_in_order_witness :
  reachable Demo.utc Demo.given_back
  ∧ StronglySorted Z.lt
      (he_transaction_id <$>
         [mkHistoryEntry 1 101 "Dune" Demo.spring_noon
            (Some (Demo.spring_noon + 5)) returned])
  ∧ ∃ name' es',
      history 1 (exec Demo.utc (Borrow (Demo.spring_noon + 9) 1 101)
                   Demo.given_back)
      = Ok (1, name', es')
      ∧ he_transaction_id <$> es' = [1; 2].
Proof.
  assert (reachable Demo.utc Demo.given_back) as Hr.
  { apply reachable_run, reachable_run, reachable_init. }
  split; [exact Hr|].
  destruct (history_grows_in_order Demo.utc Demo.given_back 1 "Ada"
              [mkHistoryEntry 1 101 "Dune" Demo.spring_noon
                 (Some (Demo.spring_noon + 5)) returned]
              Hr eq_refl) as (Hs & H1 & _).
  split; [exact Hs|].
  exact (H1 (Demo.spring_noon + 9) 101
           (Borrowing.mk 2 1 "Ada" 101 "Dune" (Demo.spring_noon + 9)
              (Demo.spring_noon + 9 + 14 * Date.msPerDay) active None)
           (borrow Demo.utc (Demo.spring_noon + 9) 1 101 Demo.given_back).2
           eq_refl).
Defined.

Lemma well_formed_exec tz op s : well_formed s → well_formed (exec tz op s).
Proof.
  intros (Hm & Hb & Hr).
  destruct op as [i n a|i n a|now mid bid|now mid bid|i|i t a n|i]; simpl.
  - unfold create_member.
    destruct i as [id|], n as [nm|], a as [ag|]; try done. simpl.
    destruct (decide (id ≠ 0)) as [Hid|Hid];
      [rewrite (bool_decide_eq_true_2 _ Hid)
      |rewrite (bool_decide_eq_false_2 _ Hid); done].
    destruct (decide (nm ≠ EmptyString)) as [Hnm|Hnm];
      [rewrite (bool_decide_eq_true_2 _ Hnm)
      |rewrite (bool_decide_eq_false_2 _ Hnm); done].
    simpl. destruct (bool_decide (is_Some _)); [done|].
    case_bool_decide as Hag; [done|].
    split_and!; try done. simpl. intros k m. rewrite lookup_insert.
    destruct (decide (id = k)) as [<-|?]; [|by apply Hm].
    intros [= <-]. simpl. split_and!; try done. lia.
  - unfold update_member.
    destruct (members s !! i) as [mi|] eqn:Hi; [|done].
    destruct (Hm i mi Hi) as (Hk & Hnm & Hag).
    destruct a as [ag|]; [case_bool_decide as Hlt; [done|]|];
      (split_and!; try done); simpl; intros k m; rewrite lookup_insert;
      (destruct (decide (i = k)) as [<-|?]; [|by apply Hm]);
      intros [= <-]; (split; [done|]);
      destruct n as [nm|]; simpl; repeat case_bool_decide; simpl;
      split; try done; lia.
  - destruct (borrow tz now mid bid s) as [[r|e|] s'] eqn:E; simpl.
    2,3: pose proof (borrow_not_Ok tz now mid bid s) as Hs; rewrite E in Hs;
         simpl in Hs; by rewrite Hs.
    apply borrow_Ok in E as (m0 & b0 & Hm0 & Hb0 & _ & _ & Hrr & ->).
    destruct (Hm mid m0 Hm0) as (Hk & Hnm & Hag).
    destruct (Hb bid b0 Hb0) as (Hkb & Hti & Hau & His).
    split_and!; simpl.
    + intros k m. rewrite lookup_insert.
      destruct (decide (mid = k)) as [<-|?]; [|by apply Hm].
      by intros [= <-].
    + intros k b. rewrite lookup_insert.
      destruct (decide (bid = k)) as [<-|?]; [|by apply Hb].
      by intros [= <-].
    + intros r0 [Hr0| ->%list_elem_of_singleton]%elem_of_app; [by apply Hr|].
      by rewrite Hrr.
  - unfold return_book.
    destruct (members s !! mid) as [m0|] eqn:Hm0; [|done].
    destruct (List.find _ _) as [[l b0]|] eqn:Hf; [|done].
    destruct (Hm mid m0 Hm0) as (Hk & Hnm & Hag).
    assert (∀ r, r ∈ <[l := Borrowing.mark_returned now b0]> (heap s) →
              Borrowing.member_id r ≠ 0 ∧ Borrowing.book_id r ≠ 0
              ∧ Borrowing.member_name r ≠ EmptyString
              ∧ Borrowing.book_title r ≠ EmptyString) as Hr'.
    { intros r [j Hj]%list_elem_of_lookup.
      destruct (decide (j = l)) as [->|Hne].
      - destruct (decide (l < length (heap s))%nat) as [Hlt|Hge].
        + rewrite list_lookup_insert_eq in Hj by done. injection Hj as <-.
          apply find_some in Hf as [Hin _].
          apply list_elem_of_In, list_elem_of_omap in Hin
            as ([k0 l0] & _ & Hl0). simpl in Hl0.
          destruct (heap s !! l0) as [b1|] eqn:Hb1; [|done].
          injection Hl0 as -> ->.
          apply (Hr b0). by eapply list_elem_of_lookup_2.
        + rewrite list_insert_ge in Hj by lia.
          apply Hr. by eapply list_elem_of_lookup_2.
      - rewrite list_lookup_insert_ne in Hj by done.
        apply Hr. by eapply list_elem_of_lookup_2. }
    assert (∀ k m, <[mid := Member.set_has_borrowed false m0]> (members s) !! k
                   = Some m →
              k ≠ 0 ∧ Member.name m ≠ EmptyString ∧ 12 ≤ Member.age m) as Hm'.
    { intros k m. rewrite lookup_insert.
      destruct (decide (mid = k)) as [<-|?]; [|by apply Hm].
      by intros [= <-]. }
    destruct (books s !! bid) as [bk|] eqn:Hbk; (split_and!; simpl; try done).
    intros k b. rewrite lookup_insert.
    destruct (decide (bid = k)) as [<-|?]; [|by apply Hb].
    intros [= <-]. simpl. by apply (Hb bid bk).
  - unfold delete_member.
    destruct (members s !! i) as [mi|]; [|done].
    destruct (Member.has_borrowed mi); [done|].
    split_and!; try done. simpl.
    intros k m [_ ?]%lookup_delete_Some. by apply Hm.
  - unfold add_book.
    destruct i as [id|], t as [ti|], a as [au|], n as [isb|]; try done. simpl.
    destruct (decide (id ≠ 0)) as [Hid|Hid];
      [rewrite (bool_decide_eq_true_2 _ Hid)
      |rewrite (bool_decide_eq_false_2 _ Hid); done].
    destruct (decide (ti ≠ EmptyString)) as [Hti|Hti];
      [rewrite (bool_decide_eq_true_2 _ Hti)
      |rewrite (bool_decide_eq_false_2 _ Hti); done].
    destruct (decide (au ≠ EmptyString)) as [Hau|Hau];
      [rewrite (bool_decide_eq_true_2 _ Hau)
      |rewrite (bool_decide_eq_false_2 _ Hau); done].
    destruct (decide (isb ≠ EmptyString)) as [His|His];
      [rewrite (bool_decide_eq_true_2 _ His)
      |rewrite (bool_decide_eq_false_2 _ His); done].
    simpl. destruct (bool_decide (is_Some _)); [done|].
    split_and!; try done. simpl. intros k b. rewrite lookup_insert.
    destruct (decide (id = k)) as [<-|?]; [|by apply Hb].
    by intros [= <-].
  - unfold delete_book.
    destruct (books s !! i) as [bi|]; [|done].
    destruct (existsb _ _); [done|].
    split_and!; try done. simpl.
    intros k b [_ ?]%lookup_delete_Some. by apply Hb.
Qed.

(** X15: in every reachable state every stored member has a non-zero id,
    a non-empty name and an age of at least 12, every stored book has a
    non-zero id and non-empty title, author and ISBN, and every ledger
    record carries a non-zero member id and book id and a non-empty member
    name and book title: no update, borrow, return or deletion lets
    anything else in. *)
Theorem stored_data_is_valid tz s :
  reachable tz s →
  (∀ k m, members s !! k = Some m →
     k ≠ 0 ∧ Member.name m ≠ EmptyString ∧ 12 ≤ Member.age m)
  ∧ (∀ k b, books s !! k = Some b →
     k ≠ 0 ∧ Book.title b ≠ EmptyString ∧ Book.author b ≠ EmptyString
     ∧ Book.isbn b ≠ EmptyString)
  ∧ (∀ r, r ∈ ledger_values s →
     Borrowing.member_id r ≠ 0 ∧ Borrowing.book_id r ≠ 0
     ∧ Borrowing.member_name r ≠ EmptyString
     ∧ Borrowing.book_title r ≠ EmptyString).
Proof.
  intros Hreach.
  pose proof (reachable_consistent tz s Hreach) as Hc.
  rewrite (ledger_values_of s (c_ledger _ s Hc)).
  change (well_formed s).
  clear Hc. induction Hreach as [|op s _ IH].
  - split_and!; [by intros k m ?|by intros k b ?|by intros r ?%elem_of_nil].
  - by apply well_formed_exec.
Qed.

(** After renaming Ada with an empty name and a good age, her name stands
    and the new age is stored. *)
Lemma stored_data_is_valid_witness :
  reachable Demo.utc
    (run Demo.utc [UpdateMember 1 (Some "") (Some 40)]
       (Demo.lent Demo.utc Demo.spring_noon))
  ∧ members (run Demo.utc [UpdateMember 1 (Some "") (Some 40)]
               (Demo.lent Demo.utc Demo.spring_noon)) !! 1
    = Some (Member.mk 1 "Ada" 40 true [0%nat])
  ∧ (1 ≠ 0 ∧ "Ada" ≠ EmptyString ∧ 12 ≤ 40).
Proof.
  pose proof (reachable_run Demo.utc
                (Demo.stock ++ [Borrow Demo.spring_noon 1 101]
                 ++ [UpdateMember 1 (Some "") (Some 40)])
                init (reachable_init Demo.utc)) as Hr.
  split; [exact Hr|]. split; [reflexivity|].
  exact (proj1 (stored_data_is_valid Demo.utc _ Hr) 1
           (Member.mk 1 "Ada" 40 true [0%nat]) eq_refl).
Defined.
